(** * mobx-when: the [@when] method decorator

    A shallow embedding of [src/index.ts] and the properties of its
    registry and of the lifecycle wrappers it installs.

    Modelling conventions.
    - Objects (class prototypes and instances) are identities of type [obj];
      the heap gives every object its own properties and its prototype chain.
      Property values are functions; an absent property reads as [None]
      (JavaScript's [undefined]).
    - Function values are user functions ([Native], opaque, identified by a
      number) or one of the two closures the decorator builds
      ([InitWrapper], [DeinitWrapper]), which capture [target] and the
      original lifecycle function.
    - The per-class dictionary is a plain object used as a map: an
      association list in insertion order, with the [in] operator and the
      [for ... in] enumeration of JavaScript written out.  A decorated
      method is named by a string or by a symbol
      ([propertyName: string | symbol]); the cast [propertyName as string]
      converts nothing, so both kinds of key reach the dictionary.
    - Everything the code does to the outside world is recorded in a trace
      of events: a user function running, a bound method being applied,
      [Object.defineProperty], the start of an observation and the call of
      a disposer.  User functions are not interpreted: running one leaves
      the registry, the heap and the reactive engine as they are.
    - Redefinition of a lifecycle property always succeeds (class methods
      are configurable properties of an extensible prototype). *)

From stdpp Require Import base option list gmap strings sorting.
From Stdlib Require Import ZArith.

Local Open Scope string_scope.
Local Open Scope list_scope.
Local Open Scope nat_scope.

(** ** Values *)

Definition obj := nat.

(** A predicate is a user function [() => boolean]; its value for a given
    receiver is read from the reactive environment. *)
Definition pred := nat.

(** The disposer returned by [observe]: it cancels the observation with
    that number. *)
Definition Lambda := nat.

(** Elements of [parameters: any[]]. *)
Inductive any :=
| ANum (z : Z)
| AStr (s : string)
| ARef (o : obj)
| AUndefined.

Inductive func :=
| Native (id : nat)
| InitWrapper (target : obj) (originalInitializer : func)
| DeinitWrapper (target : obj) (originalDeinitializer : func).

Global Instance any_eq_dec : EqDecision any.
Proof. solve_decision. Defined.

Global Instance func_eq_dec : EqDecision func.
Proof. solve_decision. Defined.

(** ** The heap: objects, [target[name]] and [Object.defineProperty] *)

Record JSObject := {
  prototypeChain : list obj;
  ownProperties : gmap string func
}.

Definition getOwnProperty (h : gmap obj JSObject) (o : obj) (name : string)
  : option func :=
  match h !! o with
  | Some ob => ownProperties ob !! name
  | None => None
  end.

(** [o[name]]: the object's own property, else the first one found along
    its prototype chain, else undefined. *)
Definition get (h : gmap obj JSObject) (o : obj) (name : string) : option func :=
  match getOwnProperty h o name with
  | Some f => Some f
  | None =>
      match h !! o with
      | Some ob =>
          foldr (λ p rest, match getOwnProperty h p name with
                           | Some f => Some f
                           | None => rest
                           end) None (prototypeChain ob)
      | None => None
      end
  end.

(** [Object.defineProperty(o, name, { configurable: true, value })]. *)
Definition defineProperty (h : gmap obj JSObject) (o : obj) (name : string)
    (value : func) : gmap obj JSObject :=
  match h !! o with
  | Some ob =>
      <[o := {| prototypeChain := prototypeChain ob;
                ownProperties := <[name := value]> (ownProperties ob) |}]> h
  | None =>
      <[o := {| prototypeChain := [];
                ownProperties := {[name := value]} |}]> h
  end.

(** ** The registry *)

Record WhenInformation := {
  predicate : pred;
  disposer : option Lambda;
  originalFunction : option func;
  parameters : option (list any)
}.

(** [propertyName: string | symbol]. *)
Inductive PropertyKey :=
| Str (name : string)
| Sym (id : nat).

Global Instance PropertyKey_eq_dec : EqDecision PropertyKey.
Proof. solve_decision. Defined.

Coercion Str : string >-> PropertyKey.

Definition Dictionary := list (PropertyKey * WhenInformation).

Definition set_disposer (d : option Lambda) (w : WhenInformation)
  : WhenInformation :=
  {| predicate := predicate w;
     disposer := d;
     originalFunction := originalFunction w;
     parameters := parameters w |}.

(** The names every object literal inherits from [Object.prototype]; the
    dictionary is created by [{}], so the [in] operator finds them in it
    from the start.  None of them is enumerable, and none is a symbol. *)
Definition objectPrototypeKeys : list string :=
  [ "constructor"; "hasOwnProperty"; "isPrototypeOf"; "propertyIsEnumerable";
    "toLocaleString"; "toString"; "valueOf"; "__proto__";
    "__defineGetter__"; "__defineSetter__"; "__lookupGetter__";
    "__lookupSetter__" ].

(** Whether a key is found in every object literal, by inheritance. *)
Definition inherited (k : PropertyKey) : bool :=
  match k with
  | Str name => bool_decide (name ∈ objectPrototypeKeys)
  | Sym _ => false
  end.

Definition keys (d : Dictionary) : list PropertyKey := d.*1.

(** The string keys, in creation order. *)
Definition names (d : Dictionary) : list string :=
  omap (λ k, match k with Str name => Some name | Sym _ => None end) (keys d).

Fixpoint lookup_key (k : PropertyKey) (d : Dictionary)
  : option WhenInformation :=
  match d with
  | [] => None
  | (k', w) :: d' => if decide (k' = k) then Some w else lookup_key k d'
  end.

(** [propertyName in dictionary]. *)
Definition has_key (k : PropertyKey) (d : Dictionary) : bool :=
  bool_decide (k ∈ keys d) || inherited k.

(** [dictionary[k] = w]: an existing own property keeps its place, a new
    one is created last. *)
Fixpoint assign (k : PropertyKey) (w : WhenInformation) (d : Dictionary)
  : Dictionary :=
  match d with
  | [] => [(k, w)]
  | (k', w') :: d' =>
      if decide (k' = k) then (k', w) :: d' else (k', w') :: assign k w d'
  end.

(** [dictionary[k].field = ...]: the record stored under [k] is changed in
    place. *)
Fixpoint update (f : WhenInformation → WhenInformation) (k : PropertyKey)
    (d : Dictionary) : Dictionary :=
  match d with
  | [] => []
  | (k', w') :: d' =>
      if decide (k' = k) then (k', f w') :: d' else (k', w') :: update f k d'
  end.

(** *** Enumeration of [for (const propertyKey in map)]

    Only string keys are enumerated: symbol keys are skipped.  Keys that
    are canonical array indices come first, in ascending numeric order; the
    other strings follow in creation order. *)

Definition digit_of (c : Ascii.ascii) : option N :=
  let n := Ascii.N_of_ascii c in
  if bool_decide (48 ≤ n ∧ n ≤ 57)%N then Some (n - 48)%N else None.

Fixpoint parse_digits (acc : N) (s : string) : option N :=
  match s with
  | EmptyString => Some acc
  | String c s' =>
      match digit_of c with
      | Some v => parse_digits (acc * 10 + v) s'
      | None => None
      end
  end.

(** The index a key denotes, when it is the canonical decimal form of an
    integer below 2^32 - 1. *)
Definition array_index (s : string) : option N :=
  match s with
  | EmptyString => None
  | String c s' =>
      if bool_decide (Ascii.N_of_ascii c = 48%N ∧ s' ≠ EmptyString) then None
      else match parse_digits 0 s with
           | Some n => if bool_decide (n < 4294967295)%N then Some n else None
           | None => None
           end
  end.

Definition index_le (a b : N * string) : Prop := (a.1 ≤ b.1)%N.

Global Instance index_le_dec : RelDecision index_le.
Proof. intros a b. unfold index_le. apply _. Defined.

Definition index_keys (ks : list string) : list (N * string) :=
  omap (λ k, (λ n, (n, k)) <$> array_index k) ks.

Definition for_in_order (ks : list string) : list string :=
  (merge_sort index_le (index_keys ks)).*2
  ++ filter (λ k, array_index k = None) ks.

Definition for_in (d : Dictionary) : list string := for_in_order (names d).

(** The keys [for...in] can reach: a symbol is never enumerated. *)
Definition enumerated (k : PropertyKey) : bool :=
  match k with
  | Str _ => true
  | Sym _ => false
  end.

(** ** The reactive engine

    The engine (MobX's [computed] and [observe]) is an external
    collaborator of the repository; its four definitions below, [Reaction],
    [observe], [dispose] and [propagate] (with [react]), follow the spec's
    description of it. *)

(** The arrow function passed to [observe] at lines 147-151, with the
    variables it closes over. *)
Record Listener := {
  boundFunction : option func;
  boundThis : obj;
  boundParameters : option (list any)
}.

(** Modelled from the spec: an observation, the missing [mobx] primitive
    "observe a derived boolean-producing expression and invoke a callback
    with the new value on each change, returning a disposer callable with
    no arguments".  It remembers the derived expression and the receiver
    bound to it, the value found when it was last evaluated, the callback,
    and whether its disposer has been called. *)
Record Reaction := {
  derivation : pred;
  receiver : obj;
  lastValue : bool;
  onChange : Listener;
  isDisposed : bool
}.

(** The value every predicate has, for every receiver, at one moment. *)
Definition environment := pred → obj → bool.

(** ** Events *)

Inductive site :=
| Immediately (target : obj) (propertyKey : string)  (* line 154 *)
| OnChange (id : Lambda).                            (* line 149 *)

Inductive event :=
| DefineProperty (target : obj) (name : string) (value : func)
| Invoke (id : nat) (this : obj) (args : list any)
| Observe (id : Lambda) (p : pred) (this : obj)
| Fire (at_ : site) (f : func) (this : obj) (args : list any)
| Dispose (id : Lambda).

Global Instance site_eq_dec : EqDecision site.
Proof. solve_decision. Defined.

Global Instance event_eq_dec : EqDecision event.
Proof. solve_decision. Defined.

(** ** Program state *)

Record state := {
  heap : gmap obj JSObject;
  whenMap : option (gmap obj Dictionary);   (* [let whenMap], lazily created *)
  reactions : list Reaction;
  env : environment;
  trace : list event
}.

Definition with_heap (h : gmap obj JSObject) (s : state) : state :=
  {| heap := h; whenMap := whenMap s; reactions := reactions s;
     env := env s; trace := trace s |}.

Definition with_whenMap (m : gmap obj Dictionary) (s : state) : state :=
  {| heap := heap s; whenMap := Some m; reactions := reactions s;
     env := env s; trace := trace s |}.

Definition with_reactions (rs : list Reaction) (s : state) : state :=
  {| heap := heap s; whenMap := whenMap s; reactions := rs;
     env := env s; trace := trace s |}.

Definition with_env (e : environment) (s : state) : state :=
  {| heap := heap s; whenMap := whenMap s; reactions := reactions s;
     env := e; trace := trace s |}.

Definition emit (evs : list event) (s : state) : state :=
  {| heap := heap s; whenMap := whenMap s; reactions := reactions s;
     env := env s; trace := trace s ++ evs |}.

(** [whenMap.get(target)].  Before the first decoration there is no map
    and no wrapper that could ask; the lookup then finds nothing. *)
Definition table (s : state) (target : obj) : option Dictionary :=
  match whenMap s with
  | Some m => m !! target
  | None => None
  end.

(** A mutation of the dictionary object stored under [target]. *)
Definition modify_table (f : Dictionary → Dictionary) (target : obj)
    (s : state) : state :=
  match whenMap s with
  | Some m => with_whenMap (alter f target m) s
  | None => s
  end.

(** ** [when]: the decorator factory (lines 103-122) *)

Module IParams.
Record t := {
  predicate : pred;
  parameters : option (list any);
  initFunctionName : option string;
  deinitFunctionName : option string
}.
End IParams.

(** The two shapes of the first argument, told apart by
    [typeof predicateOrParameters === 'function']. *)
Inductive whenArguments :=
| PredicateForm (predicateOrParameters : pred) (parameters : list any)
| ParamsForm (predicateOrParameters : IParams.t).

(** The variables the returned [decorate] closes over. *)
Record Decorator := {
  boundPredicate : pred;
  funcParams : option (list any);
  initFunctionName : string;
  deinitFunctionName : string
}.

Definition when (args : whenArguments) : Decorator :=
  let params :=
    match args with
    | PredicateForm p parameters =>
        {| IParams.predicate := p;
           IParams.parameters := Some parameters;
           IParams.initFunctionName := Some "componentDidMount";
           IParams.deinitFunctionName := Some "componentWillUnmount" |}
    | ParamsForm p => p
    end in
  {| boundPredicate := IParams.predicate params;
     funcParams := IParams.parameters params;
     initFunctionName :=
       default "componentDidMount" (IParams.initFunctionName params);
     deinitFunctionName :=
       default "componentWillUnmount" (IParams.deinitFunctionName params) |}.

(** ** [decorate] (lines 124-200) *)

Record PropertyDescriptor := {
  value : option func;
  writable : bool;
  enumerable : bool;
  configurable : bool
}.

Inductive completion (A : Type) :=
| Normal (result : A) (s : state)
| Thrown (message : string) (s : state).
Global Arguments Normal {A} result s.
Global Arguments Thrown {A} message s.

Definition final {A} (c : completion A) : state :=
  match c with
  | Normal _ s => s
  | Thrown _ s => s
  end.

(** Lines 187-199, on the dictionary of [target]. *)
Definition register (w : Decorator) (target : obj) (propertyName : PropertyKey)
    (descriptor : PropertyDescriptor) (dictionary : Dictionary) (s : state)
  : completion PropertyDescriptor :=
  if has_key propertyName dictionary then Normal descriptor s
  else
    let originalFunction := value descriptor in
    Normal descriptor
      (modify_table
         (assign propertyName
            {| predicate := boundPredicate w;
               disposer := None;
               originalFunction := originalFunction;
               parameters := funcParams w |})
         target s).

Definition decorate (w : Decorator) (target : obj) (propertyName : PropertyKey)
    (descriptor : PropertyDescriptor) (s : state)
  : completion PropertyDescriptor :=
  let m := default ∅ (whenMap s) in
  let s := with_whenMap m s in
  match m !! target with
  | None =>
      let s := with_whenMap (<[target := []]> m) s in
      let originalInitializer := get (heap s) target (initFunctionName w) in
      let originalDeinitializer := get (heap s) target (deinitFunctionName w) in
      match originalInitializer with
      | Some oi =>
          let wrapper := InitWrapper target oi in
          let s :=
            emit [DefineProperty target (initFunctionName w) wrapper]
              (with_heap
                 (defineProperty (heap s) target (initFunctionName w) wrapper)
                 s) in
          match originalDeinitializer with
          | Some od =>
              let wrapper := DeinitWrapper target od in
              let s :=
                emit [DefineProperty target (deinitFunctionName w) wrapper]
                  (with_heap
                     (defineProperty (heap s) target (deinitFunctionName w)
                        wrapper)
                     s) in
              register w target propertyName descriptor [] s
          | None =>
              Thrown "No deinitializer function is provided for @when" s
          end
      | None => Thrown "No initializer function is provided for @when" s
      end
  | Some dictionary => register w target propertyName descriptor dictionary s
  end.

(** ** The lifecycle wrappers (lines 139-157 and 167-176) *)

(** [originalFunction?.apply(this, parameters)]: nothing when the function
    is undefined; undefined parameters are an empty argument list. *)
Definition fire (at_ : site) (f : option func) (this : obj)
    (args : option (list any)) (s : state) : state :=
  match f with
  | Some g => emit [Fire at_ g this (default [] args)] s
  | None => s
  end.

(** Modelled from the spec: [computed(predicate.bind(this)).observe(listener)],
    the missing [mobx] primitive.  The derivation is evaluated once, no
    notification is sent for that first value, and the disposer of the new
    observation is returned. *)
Definition observe (p : pred) (this : obj) (listener : Listener) (s : state)
  : Lambda * state :=
  let id := length (reactions s) in
  (id,
   emit [Observe id p this]
     (with_reactions
        (reactions s ++
           [{| derivation := p; receiver := this; lastValue := env s p this;
               onChange := listener; isDisposed := false |}])
        s)).

(** One iteration of the loop at lines 144-156. *)
Definition subscribe (target : obj) (this : obj) (s : state)
    (propertyKey : string) : state :=
  match table s target ≫= lookup_key propertyKey with
  | Some info =>
      let '(id, s) :=
        observe (predicate info) this
          {| boundFunction := originalFunction info;
             boundThis := this;
             boundParameters := parameters info |} s in
      let s := modify_table (update (set_disposer (Some id)) propertyKey)
                 target s in
      if env s (predicate info) this
      then fire (Immediately target propertyKey) (originalFunction info) this
             (parameters info) s
      else s
  | None => s
  end.

(** Modelled from the spec: calling the disposer an observation returned,
    which "cancels an active observation; calling it more than once is a
    no-op". *)
Definition dispose (id : Lambda) (s : state) : state :=
  emit [Dispose id]
    (with_reactions
       (alter (λ r, {| derivation := derivation r; receiver := receiver r;
                       lastValue := lastValue r; onChange := onChange r;
                       isDisposed := true |}) id (reactions s))
       s).

(** One iteration of the loop at lines 172-175. *)
Definition unsubscribe (target : obj) (s : state) (propertyKey : string)
  : state :=
  match table s target ≫= lookup_key propertyKey with
  | Some info =>
      match disposer info with
      | Some id => dispose id s
      | None => s
      end
  | None => s
  end.

(** [f.apply(this, params)]. *)
Fixpoint apply (f : func) (this : obj) (params : list any) (s : state)
  : state :=
  match f with
  | Native id => emit [Invoke id this params] s
  | InitWrapper target originalInitializer =>
      let s := apply originalInitializer this params s in
      match table s target with
      | Some map => foldl (subscribe target this) s (for_in map)
      | None => s
      end
  | DeinitWrapper target originalDeinitializer =>
      let s := apply originalDeinitializer this params s in
      match table s target with
      | Some dict => foldl (unsubscribe target) s (for_in dict)
      | None => s
      end
  end.

(** ** Change propagation in the engine *)

(** The listener of lines 147-151 receiving [{ newValue }]. *)
Definition notify (id : Lambda) (l : Listener) (newValue : bool) : list event :=
  if newValue then
    match boundFunction l with
    | Some g =>
        [Fire (OnChange id) g (boundThis l) (default [] (boundParameters l))]
    | None => []
    end
  else [].

(** Modelled from the spec: what one observation does when the observable
    state changes: nothing when it is disposed or when its derived value is
    the one it had; otherwise it takes the new value and calls back with
    it. *)
Definition react (e : environment) (id : Lambda) (r : Reaction)
  : Reaction * list event :=
  let newValue := e (derivation r) (receiver r) in
  if isDisposed r then (r, [])
  else if bool_decide (newValue = lastValue r) then (r, [])
  else ({| derivation := derivation r; receiver := receiver r;
           lastValue := newValue; onChange := onChange r;
           isDisposed := false |},
        notify id (onChange r) newValue).

(** Modelled from the spec: the observable state changes, so that
    predicates now evaluate as [e] says; the engine notifies, synchronously
    and in the order they were started, the observations whose value
    changed. *)
Definition propagate (e : environment) (s : state) : state :=
  let rs := imap (react e) (reactions s) in
  emit (concat rs.*2) (with_reactions rs.*1 (with_env e s)).

(** ** Runs *)

(** [this[name](...args)], as the host framework or any caller does. *)
Definition call (this : obj) (name : string) (args : list any) (s : state)
  : completion unit :=
  match get (heap s) this name with
  | Some f => Normal () (apply f this args s)
  | None => Thrown "TypeError: not a function" s
  end.

Inductive action :=
| Decorate (w : Decorator) (target : obj) (propertyName : PropertyKey)
    (descriptor : PropertyDescriptor)
| Call (this : obj) (name : string) (args : list any)
| Change (e : environment).

(** The state an action leaves behind, whether it returns or throws. *)
Definition perform (s : state) (a : action) : state :=
  match a with
  | Decorate w target propertyName descriptor =>
      final (decorate w target propertyName descriptor s)
  | Call this name args => final (call this name args s)
  | Change e => propagate e s
  end.

Definition run (s : state) (l : list action) : state := foldl perform s l.

(** ** Observations on traces *)

(** The bound-method applications made at a given place, in order. *)
Definition fires_at (x : site) (tr : list event)
  : list (func * obj * list any) :=
  omap (λ ev, match ev with
              | Fire y f this args =>
                  if decide (y = x) then Some (f, this, args) else None
              | _ => None
              end) tr.

(** The properties defined on [target], in order. *)
Definition installs (target : obj) (tr : list event) : list (string * func) :=
  omap (λ ev, match ev with
              | DefineProperty t name f =>
                  if decide (t = target) then Some (name, f) else None
              | _ => None
              end) tr.

(** What was recorded between an earlier state and a later one. *)
Definition events_since (s s' : state) : list event :=
  drop (length (trace s)) (trace s').

(** Number of false-to-true steps in the value sequence [v :: vs]. *)
Fixpoint rising (v : bool) (vs : list bool) : nat :=
  match vs with
  | [] => 0
  | v' :: vs' => (if negb v && v' then 1 else 0) + rising v' vs'
  end.

(** Whether applying [f] runs the activation loop of [target]. *)
Fixpoint activates (target : obj) (f : func) : bool :=
  match f with
  | Native _ => false
  | InitWrapper t original => bool_decide (t = target) || activates target original
  | DeinitWrapper _ original => activates target original
  end.

(** Whether some call of the run reaches the activation loop of [target]. *)
Fixpoint activated (target : obj) (s : state) (l : list action) : bool :=
  match l with
  | [] => false
  | a :: l' =>
      match a with
      | Call this name _ =>
          match get (heap s) this name with
          | Some f => activates target f
          | None => false
          end
      | _ => false
      end || activated target (perform s a) l'
  end.

(** Every dictionary of the registry has each key once. *)
Definition well_formed (s : state) : Prop :=
  ∀ target d, table s target = Some d → NoDup (keys d).

(** The part of a binding that is fixed at decoration time. *)
Definition binding (w : WhenInformation)
  : pred * option func * option (list any) :=
  (predicate w, originalFunction w, parameters w).

(** What the immediate call of a binding records. *)
Definition immediate_call (this : obj) (e : environment)
    (info : WhenInformation) : list (func * obj * list any) :=
  if e (predicate info) this
  then match originalFunction info with
       | Some g => [(g, this, default [] (parameters info))]
       | None => []
       end
  else [].

(** The observation the loop starts for a binding. *)
Definition started (this : obj) (e : environment) (info : WhenInformation)
  : Reaction :=
  {| derivation := predicate info; receiver := this;
     lastValue := e (predicate info) this;
     onChange := {| boundFunction := originalFunction info;
                    boundThis := this;
                    boundParameters := parameters info |};
     isDisposed := false |}.

(** What a lifecycle call or a change notification leaves as it is. *)
Record preserved (s s' : state) : Prop := {
  preserved_heap : heap s' = heap s;
  preserved_keys : ∀ t, keys <$> table s' t = keys <$> table s t;
  preserved_binding : ∀ t k,
    binding <$> (table s' t ≫= lookup_key k)
    = binding <$> (table s t ≫= lookup_key k);
  preserved_disposer : ∀ t k,
    is_Some ((table s t ≫= lookup_key k) ≫= disposer) →
    is_Some ((table s' t ≫= lookup_key k) ≫= disposer);
  preserved_reactions : length (reactions s) ≤ length (reactions s');
  preserved_trace : ∃ evs, trace s' = trace s ++ evs ∧ ∀ t, installs t evs = []
}.

(** What the first decoration of a class defines on it. *)
Definition wrappers_for (w : Decorator) (target : obj) (s : state)
  : list (string * func) :=
  match get (heap s) target (initFunctionName w) with
  | Some oi =>
      (initFunctionName w, InitWrapper target oi)
      :: match get (heap s) target (deinitFunctionName w) with
         | Some od => [(deinitFunctionName w, DeinitWrapper target od)]
         | None => []
         end
  | None => []
  end.

(** The binding a decoration records. *)
Definition recorded (w : Decorator) (descriptor : PropertyDescriptor)
  : WhenInformation :=
  {| predicate := boundPredicate w;
     disposer := None;
     originalFunction := value descriptor;
     parameters := funcParams w |}.

(** The shapes of what the first decoration of a class defines. *)
Definition wrapped_once (target : obj) (ws : list (string * func)) : Prop :=
  ws = []
  ∨ (∃ n oi, ws = [(n, InitWrapper target oi)])
  ∨ (∃ n oi n' od,
       ws = [(n, InitWrapper target oi); (n', DeinitWrapper target od)]).

(** Every observation has been disposed. *)
Definition all_disposed (s : state) : Prop :=
  Forall (λ r, isDisposed r = true) (reactions s).

(** Every live observation is the one some binding of [target] holds the
    disposer of, among the bindings named in [ks]. *)
Definition covered (target : obj) (ks : list string) (s : state) : Prop :=
  ∀ i r, reactions s !! i = Some r → isDisposed r = false →
    ∃ (k : string) info,
      k ∈ ks ∧ table s target ≫= lookup_key k = Some info
      ∧ disposer info = Some i.

(** One activation of an instance, the changes that happen while it is
    active, and its deactivation; the original hooks are user functions. *)
Definition active_period (target : obj) (oi od : nat) (this : obj)
    (envs : list environment) (s : state) : state :=
  apply (DeinitWrapper target (Native od)) this []
    (run (apply (InitWrapper target (Native oi)) this [] s) (Change <$> envs)).

(** The observations started, in order: disposer, predicate, receiver. *)
Definition observations (tr : list event) : list (Lambda * pred * obj) :=
  omap (λ ev, match ev with
              | Observe id p this => Some (id, p, this)
              | _ => None
              end) tr.

(** No table has a key that every object inherits from [Object.prototype]. *)
Definition own_names_only (s : state) : Prop :=
  ∀ target d k, table s target = Some d → k ∈ keys d → inherited k = false.

(** The bindings of a table in the order [for ... in] visits them. *)
Definition visited (d : Dictionary) : list WhenInformation :=
  omap (λ k : string, lookup_key k d) (for_in d).

(** Complete active periods one after the other, each of some instance and
    with the changes that happen while it is active. *)
Definition active_periods (target : obj) (oi od : nat)
    (periods : list (obj * list environment)) (s : state) : state :=
  foldl (λ s p, active_period target oi od p.1 p.2 s) s periods.

(** ** A concrete class

    Class [C] (prototype object 1) defines [componentDidMount],
    [componentWillUnmount] and a method [m]; [a] and [b] are two instances.
    Class [D] (prototype object 4) defines [componentDidMount] only. *)

Module Scenario.
Definition C : obj := 1.
Definition a : obj := 2.
Definition b : obj := 3.
Definition D : obj := 4.

Definition objects : gmap obj JSObject :=
  {[ C := {| prototypeChain := [];
             ownProperties :=
               {[ "componentDidMount" := Native 10;
                  "componentWillUnmount" := Native 11;
                  "m" := Native 12;
                  "toString" := Native 13 ]} |};
     a := {| prototypeChain := [C]; ownProperties := ∅ |};
     b := {| prototypeChain := [C]; ownProperties := ∅ |};
     D := {| prototypeChain := [];
             ownProperties :=
               {[ "componentDidMount" := Native 20; "m" := Native 22 ]} |} ]}.

Definition never : environment := λ _ _, false.
Definition always : environment := λ _ _, true.
Definition only (o : obj) : environment := λ _ this, bool_decide (this = o).

Definition initial : state :=
  {| heap := objects; whenMap := None; reactions := []; env := never;
     trace := [] |}.

Definition method (id : nat) : PropertyDescriptor :=
  {| value := Some (Native id); writable := true; enumerable := false;
     configurable := true |}.

(** [@when(P, 1, 2)], with [P] the predicate number 0. *)
Definition bound : Decorator := when (PredicateForm 0 [ANum 1; ANum 2]).

Definition other : Decorator :=
  when (ParamsForm {| IParams.predicate := 0;
                      IParams.parameters := Some [ANum 1; ANum 2];
                      IParams.initFunctionName := Some "mount";
                      IParams.deinitFunctionName := Some "unmount" |}).

(** The class after [@when(P, 1, 2) m() {}]. *)
Definition decorated : state := run initial [Decorate bound C "m" (method 12)].
End Scenario.

(** * Properties *)

(** ** Dictionaries *)

Section dictionary.
Implicit Types (d : Dictionary) (k : PropertyKey) (w : WhenInformation).

Lemma keys_update f k d : keys (update f k d) = keys d.
Proof.
  induction d as [|[k' w'] d IH]; simpl; [done|].
  case_decide; simpl; [done|]. by f_equal.
Qed.

Lemma lookup_key_update f k k' d :
  lookup_key k' (update f k d)
  = if decide (k = k') then f <$> lookup_key k d else lookup_key k' d.
Proof.
  induction d as [|[k0 w0] d IH]; simpl.
  - by case_decide.
  - destruct (decide (k0 = k)) as [->|?]; simpl;
      destruct (decide (k = k')) as [->|?]; simpl;
      repeat (case_decide; simplify_eq); try done;
      rewrite IH; by repeat (case_decide; simplify_eq).
Qed.

Lemma lookup_key_None k d : lookup_key k d = None ↔ k ∉ keys d.
Proof.
  induction d as [|[k0 w0] d IH]; simpl.
  - split; [intros _; apply not_elem_of_nil | done].
  - rewrite not_elem_of_cons, <-IH. case_decide.
    + split; [done | intros [? _]; congruence].
    + split; [intros ?; split; [congruence | done] | tauto].
Qed.

Lemma lookup_key_is_Some k d : is_Some (lookup_key k d) ↔ k ∈ keys d.
Proof.
  rewrite <-not_eq_None_Some, lookup_key_None.
  split; [apply dec_stable | auto].
Qed.

Lemma assign_fresh k w d : k ∉ keys d → assign k w d = d ++ [(k, w)].
Proof.
  induction d as [|[k0 w0] d IH]; simpl; [done|].
  rewrite not_elem_of_cons. intros [? ?].
  rewrite decide_False by done. by rewrite IH.
Qed.

Lemma lookup_key_app k d d' :
  lookup_key k (d ++ d')
  = match lookup_key k d with Some w => Some w | None => lookup_key k d' end.
Proof.
  induction d as [|[k0 w0] d IH]; simpl; [done|]. by case_decide.
Qed.

Lemma has_key_own k d : k ∈ keys d → has_key k d = true.
Proof. intros. unfold has_key. by rewrite bool_decide_eq_true_2. Qed.

Lemma has_key_false k d :
  has_key k d = false ↔ (k ∉ keys d) ∧ inherited k = false.
Proof.
  unfold has_key. rewrite orb_false_iff, bool_decide_eq_false. done.
Qed.

Lemma for_in_order_Permutation (ks : list string) : for_in_order ks ≡ₚ ks.
Proof.
  unfold for_in_order. rewrite merge_sort_Permutation.
  induction ks as [|k ks IH]; [done|].
  unfold index_keys in *. simpl. rewrite filter_cons.
  destruct (array_index k) as [n|] eqn:Hk; simpl.
  - by constructor.
  - rewrite <-Permutation_middle. by constructor.
Qed.

Lemma elem_of_names (name : string) d : name ∈ names d ↔ Str name ∈ keys d.
Proof.
  unfold names. rewrite list_elem_of_omap. split.
  - intros (k & Hk & Hname). destruct k as [n|i]; [|done]. by simplify_eq.
  - intros Hk. by exists (Str name).
Qed.

Lemma names_NoDup d : NoDup (keys d) → NoDup (names d).
Proof.
  unfold names. induction 1 as [|k ks Hk Hnd IH]; [constructor|].
  destruct k as [n|i]; cbn [omap list_omap]; [|done].
  constructor; [|done]. rewrite list_elem_of_omap.
  intros (k & Hin & Hname). destruct k as [n'|i]; [|done]. by simplify_eq.
Qed.

Lemma for_in_NoDup d : NoDup (keys d) → NoDup (for_in d).
Proof.
  intros Hnd. unfold for_in. rewrite for_in_order_Permutation.
  by apply names_NoDup.
Qed.

Lemma enumerated_for_in k d :
  k ∈ keys d →
  enumerated k = true ↔ ∃ name : string, k = Str name ∧ name ∈ for_in d.
Proof.
  intros Hk. destruct k as [name|i]; simpl.
  - split; [intros _|done]. exists name. split; [done|].
    unfold for_in. rewrite for_in_order_Permutation. by apply elem_of_names.
  - split; [done|]. by intros (name & ? & _).
Qed.

Lemma elem_of_for_in (name : string) d : name ∈ for_in d ↔ Str name ∈ keys d.
Proof. unfold for_in. rewrite for_in_order_Permutation. apply elem_of_names. Qed.
End dictionary.

(** ** State components under the basic operations *)

Lemma table_modify_table f target s t :
  table (modify_table f target s) t
  = if decide (target = t) then f <$> table s t else table s t.
Proof.
  unfold table, modify_table. destruct (whenMap s) as [m|] eqn:Hm; simpl.
  - rewrite lookup_alter. destruct (decide (target = t)); by subst.
  - rewrite Hm. by destruct (decide (target = t)).
Qed.

Lemma trace_modify_table f target s :
  trace (modify_table f target s) = trace s.
Proof. unfold modify_table. by destruct (whenMap s). Qed.

Lemma reactions_modify_table f target s :
  reactions (modify_table f target s) = reactions s.
Proof. unfold modify_table. by destruct (whenMap s). Qed.

Lemma env_modify_table f target s : env (modify_table f target s) = env s.
Proof. unfold modify_table. by destruct (whenMap s). Qed.

Lemma heap_modify_table f target s : heap (modify_table f target s) = heap s.
Proof. unfold modify_table. by destruct (whenMap s). Qed.

Lemma with_whenMap_id s m : whenMap s = Some m → with_whenMap m s = s.
Proof. destruct s; simpl; intros ->; done. Qed.

Lemma events_since_app s s' evs :
  trace s' = trace s ++ evs → events_since s s' = evs.
Proof. unfold events_since. intros ->. apply drop_app_length. Qed.

Lemma fires_at_app x tr1 tr2 :
  fires_at x (tr1 ++ tr2) = fires_at x tr1 ++ fires_at x tr2.
Proof. apply omap_app. Qed.

Lemma installs_app t tr1 tr2 :
  installs t (tr1 ++ tr2) = installs t tr1 ++ installs t tr2.
Proof. apply omap_app. Qed.

(** *** One iteration of the activation loop *)

Lemma subscribe_None target this s (k : string) :
  table s target ≫= lookup_key k = None → subscribe target this s k = s.
Proof. unfold subscribe. by intros ->. Qed.

Lemma subscribe_Some target this s (k : string) d info :
  table s target = Some d → lookup_key k d = Some info →
  let s' := subscribe target this s k in
  let id := length (reactions s) in
  heap s' = heap s ∧ env s' = env s
  ∧ reactions s'
    = reactions s ++
        [{| derivation := predicate info; receiver := this;
            lastValue := env s (predicate info) this;
            onChange := {| boundFunction := originalFunction info;
                           boundThis := this;
                           boundParameters := parameters info |};
            isDisposed := false |}]
  ∧ (∀ t, table s' t
          = if decide (target = t)
            then Some (update (set_disposer (Some id)) k d)
            else table s t)
  ∧ trace s'
    = trace s ++
        Observe id (predicate info) this ::
        (if env s (predicate info) this
         then match originalFunction info with
              | Some g => [Fire (Immediately target k) g this
                             (default [] (parameters info))]
              | None => []
              end
         else []).
Proof.
  intros Ht Hk. unfold subscribe. rewrite Ht. simpl. rewrite Hk. simpl.
  rewrite env_modify_table. simpl.
  assert (∀ t, table (modify_table
                        (update (set_disposer (Some (length (reactions s)))) k)
                        target
                        (emit [Observe (length (reactions s)) (predicate info) this]
                           (with_reactions
                              (reactions s ++
                               [{| derivation := predicate info; receiver := this;
                                   lastValue := env s (predicate info) this;
                                   onChange :=
                                     {| boundFunction := originalFunction info;
                                        boundThis := this;
                                        boundParameters := parameters info |};
                                   isDisposed := false |}]) s))) t
               = if decide (target = t)
                 then Some (update (set_disposer (Some (length (reactions s)))) k d)
                 else table s t) as Htab.
  { intros t. rewrite table_modify_table. case_decide; [subst|done].
    unfold table in *. simpl. by rewrite Ht. }
  destruct (env s (predicate info) this); [destruct (originalFunction info)|];
    simpl; rewrite ?heap_modify_table, ?env_modify_table,
             ?reactions_modify_table, ?trace_modify_table; simpl;
    rewrite <-?app_assoc; simpl; repeat split; try done.
Qed.

(** *** One iteration of the deactivation loop *)

Lemma dispose_spec id s :
  heap (dispose id s) = heap s ∧ env (dispose id s) = env s
  ∧ whenMap (dispose id s) = whenMap s
  ∧ length (reactions (dispose id s)) = length (reactions s)
  ∧ trace (dispose id s) = trace s ++ [Dispose id].
Proof. unfold dispose. simpl. by rewrite length_alter. Qed.

Lemma unsubscribe_spec target s (k : string) :
  let s' := unsubscribe target s k in
  heap s' = heap s ∧ env s' = env s ∧ whenMap s' = whenMap s
  ∧ length (reactions s') = length (reactions s)
  ∧ ∃ evs, trace s' = trace s ++ evs
           ∧ Forall (λ ev, ∃ id, ev = Dispose id) evs.
Proof.
  simpl. unfold unsubscribe.
  destruct (table s target ≫= lookup_key k) as [info|];
    [destruct (disposer info) as [id|]|].
  - destruct (dispose_spec id s) as (?&?&?&?&?).
    repeat split; try done. exists [Dispose id]. split; [done|].
    constructor; [by exists id | constructor].
  - repeat split; try done. exists []. by rewrite app_nil_r.
  - repeat split; try done. exists []. by rewrite app_nil_r.
Qed.

(** ** What lifecycle calls and change notifications leave as it is *)

Lemma preserved_refl s : preserved s s.
Proof.
  split; try done. exists []. by rewrite app_nil_r.
Qed.

Lemma preserved_trans s1 s2 s3 :
  preserved s1 s2 → preserved s2 s3 → preserved s1 s3.
Proof.
  intros [Hh1 Hk1 Hb1 Hd1 Hr1 (e1 & Ht1 & Hi1)] [Hh2 Hk2 Hb2 Hd2 Hr2 (e2 & Ht2 & Hi2)].
  split.
  - congruence.
  - intros t. by rewrite Hk2.
  - intros t k. by rewrite Hb2.
  - intros t k ?. by apply Hd2, Hd1.
  - lia.
  - exists (e1 ++ e2). split.
    + by rewrite Ht2, Ht1, app_assoc.
    + intros t. by rewrite installs_app, Hi1, Hi2.
Qed.

Lemma foldl_preserved (f : state → string → state) ks s :
  (∀ s k, preserved s (f s k)) → preserved s (foldl f s ks).
Proof.
  intros Hf. revert s. induction ks as [|k ks IH]; intros s; simpl.
  - apply preserved_refl.
  - eapply preserved_trans; [apply Hf | apply IH].
Qed.

Lemma binding_set_disposer d w : binding (set_disposer d w) = binding w.
Proof. done. Qed.

Lemma subscribe_preserved target this s (k : string) : preserved s (subscribe target this s k).
Proof.
  destruct (table s target ≫= lookup_key k) as [info|] eqn:Hlook.
  2:{ rewrite subscribe_None by done. apply preserved_refl. }
  destruct (table s target) as [d|] eqn:Ht; [simpl in Hlook|done].
  destruct (subscribe_Some target this s k d info Ht Hlook)
    as (Hh & He & Hr & Htab & Htr).
  split.
  - done.
  - intros t. rewrite Htab. case_decide; [subst|done].
    rewrite Ht. simpl. by rewrite keys_update.
  - intros t k'. rewrite Htab. case_decide; [subst|done].
    rewrite Ht. simpl. rewrite lookup_key_update.
    case_decide; [subst|done]. rewrite Hlook. done.
  - intros t k'. rewrite Htab. case_decide; [subst|done].
    rewrite Ht. simpl. rewrite lookup_key_update.
    case_decide; [subst|done]. rewrite Hlook. simpl. eauto.
  - rewrite Hr, length_app. lia.
  - eexists. split; [exact Htr|]. intros t. simpl.
    destruct (env s (predicate info) this); [|done].
    by destruct (originalFunction info).
Qed.

Lemma installs_disposals t evs :
  Forall (λ ev, ∃ id, ev = Dispose id) evs → installs t evs = [].
Proof. induction 1 as [|? ? [id ->] _ IH]; [done|]. simpl. apply IH. Qed.

Lemma unsubscribe_preserved target s (k : string) : preserved s (unsubscribe target s k).
Proof.
  destruct (unsubscribe_spec target s k) as (Hh & He & Hm & Hr & evs & Htr & Hevs).
  assert (∀ t, table (unsubscribe target s k) t = table s t) as Htab.
  { intros t. unfold table. by rewrite Hm. }
  split.
  - done.
  - intros t. by rewrite Htab.
  - intros t k'. by rewrite Htab.
  - intros t k'. by rewrite Htab.
  - lia.
  - exists evs. split; [done|]. intros t. by apply installs_disposals.
Qed.

Lemma apply_preserved f this params s : preserved s (apply f this params s).
Proof.
  revert s. induction f as [id|target f IH|target f IH]; intros s; simpl.
  - split; try done. eexists. split; [reflexivity|done].
  - eapply preserved_trans; [apply IH|].
    destruct (table _ target); [|apply preserved_refl].
    apply foldl_preserved. intros. apply subscribe_preserved.
  - eapply preserved_trans; [apply IH|].
    destruct (table _ target); [|apply preserved_refl].
    apply foldl_preserved. intros. apply unsubscribe_preserved.
Qed.

Lemma subscribe_env target this s (k : string) : env (subscribe target this s k) = env s.
Proof.
  destruct (table s target ≫= lookup_key k) as [info|] eqn:Hlook.
  2:{ by rewrite subscribe_None. }
  destruct (table s target) as [d|] eqn:Ht; [simpl in Hlook|done].
  by destruct (subscribe_Some target this s k d info Ht Hlook) as (_ & He & _).
Qed.

Lemma foldl_env (f : state → string → state) ks s :
  (∀ s k, env (f s k) = env s) → env (foldl f s ks) = env s.
Proof.
  intros Hf. revert s. induction ks as [|k ks IH]; intros s; simpl; [done|].
  by rewrite IH, Hf.
Qed.

Lemma apply_env f this params s : env (apply f this params s) = env s.
Proof.
  revert s. induction f as [id|target f IH|target f IH]; intros s; simpl.
  - done.
  - destruct (table _ target); [|apply IH].
    rewrite foldl_env; [apply IH|]. intros. apply subscribe_env.
  - destruct (table _ target); [|apply IH].
    rewrite foldl_env; [apply IH|]. intros.
    by destruct (unsubscribe_spec target s0 k) as (_ & He & _).
Qed.

(** A table found before a lifecycle call is found after it, with the
    same keys and the same bindings. *)
Lemma preserved_lookup s s' t d k info :
  preserved s s' → table s t = Some d → lookup_key k d = Some info →
  ∃ d' info', table s' t = Some d' ∧ keys d' = keys d
              ∧ lookup_key k d' = Some info' ∧ binding info' = binding info.
Proof.
  intros Hp Ht Hk.
  pose proof (preserved_keys _ _ Hp t) as Hkeys.
  pose proof (preserved_binding _ _ Hp t k) as Hb.
  rewrite Ht in Hkeys, Hb. simpl in Hkeys, Hb. rewrite Hk in Hb. simpl in Hb.
  destruct (table s' t) as [d'|] eqn:Ht'; [|done]. simpl in Hkeys, Hb.
  destruct (lookup_key k d') as [info'|] eqn:Hk'; [|done].
  exists d', info'.
  repeat split; try done; by apply (inj Some).
Qed.

(** ** The activation loop, seen from one binding *)

Section activation_loop.
Variables (target this : obj) (k : string).

Lemma subscribe_other s k' :
  k' ≠ k →
  let s' := subscribe target this s k' in
  table s' target ≫= lookup_key k = table s target ≫= lookup_key k
  ∧ (∀ i r, reactions s !! i = Some r → reactions s' !! i = Some r)
  ∧ ∃ evs, trace s' = trace s ++ evs
           ∧ fires_at (Immediately target k) evs = [].
Proof.
  intros Hne. simpl.
  destruct (table s target ≫= lookup_key k') as [info|] eqn:Hlook.
  2:{ rewrite subscribe_None by done. repeat split; try done.
      exists []. by rewrite app_nil_r. }
  destruct (table s target) as [d|] eqn:Ht; [simpl in Hlook|done].
  destruct (subscribe_Some target this s k' d info Ht Hlook)
    as (_ & _ & Hr & Htab & Htr).
  repeat split.
  - rewrite Htab, decide_True by done. simpl.
    rewrite lookup_key_update. by rewrite decide_False by congruence.
  - intros i r Hi. rewrite Hr. by apply lookup_app_l_Some.
  - eexists. split; [exact Htr|]. simpl.
    destruct (env s (predicate info) this); [|done].
    destruct (originalFunction info); [|done]. simpl.
    rewrite decide_False; [done|]. congruence.
Qed.

Lemma activation_loop_other ks s :
  k ∉ ks →
  let s' := foldl (subscribe target this) s ks in
  table s' target ≫= lookup_key k = table s target ≫= lookup_key k
  ∧ (∀ i r, reactions s !! i = Some r → reactions s' !! i = Some r)
  ∧ ∃ evs, trace s' = trace s ++ evs
           ∧ fires_at (Immediately target k) evs = [].
Proof.
  revert s. induction ks as [|k' ks IH]; intros s Hk; simpl.
  - repeat split; try done. exists []. by rewrite app_nil_r.
  - apply not_elem_of_cons in Hk as [Hne Hk].
    destruct (subscribe_other s k') as (Hl1 & Hr1 & e1 & Ht1 & Hf1);
      [done|].
    destruct (IH (subscribe target this s k') Hk) as (Hl2 & Hr2 & e2 & Ht2 & Hf2).
    repeat split.
    + by rewrite Hl2.
    + intros i r Hi. by apply Hr2, Hr1.
    + exists (e1 ++ e2). split.
      * by rewrite Ht2, Ht1, app_assoc.
      * by rewrite fires_at_app, Hf1, Hf2.
Qed.

Lemma activation_loop ks s d info :
  NoDup ks → table s target = Some d → lookup_key k d = Some info →
  let s' := foldl (subscribe target this) s ks in
  ∃ evs, trace s' = trace s ++ evs
    ∧ fires_at (Immediately target k) evs
      = (if decide (k ∈ ks) then immediate_call this (env s) info else [])
    ∧ (k ∈ ks →
       ∃ sid info',
         table s' target ≫= lookup_key k = Some info'
         ∧ disposer info' = Some sid
         ∧ binding info' = binding info
         ∧ reactions s' !! sid = Some (started this (env s) info)).
Proof.
  revert s d info. induction ks as [|k' ks IH]; intros s d info Hnd Ht Hk; simpl.
  - exists []. rewrite app_nil_r. repeat split; try done.
    intros []%elem_of_nil.
  - apply NoDup_cons in Hnd as [Hk' Hnd].
    destruct (decide (k' = k)) as [->|Hne].
    + destruct (subscribe_Some target this s k d info Ht Hk)
        as (_ & He & Hr & Htab & Htr).
      destruct (activation_loop_other ks (subscribe target this s k) Hk')
        as (Hl2 & Hr2 & e2 & Ht2 & Hf2).
      eexists. split; [by rewrite Ht2, Htr, <-app_assoc|]. split.
      * rewrite decide_True by apply list_elem_of_here.
        simpl. rewrite fires_at_app, Hf2, app_nil_r.
        unfold immediate_call.
        destruct (env s (predicate info) this); [|done].
        destruct (originalFunction info); [|done]. simpl.
        by rewrite decide_True.
      * intros _. exists (length (reactions s)), (set_disposer (Some (length (reactions s))) info).
        repeat split.
        -- rewrite Hl2, Htab, decide_True by done. simpl.
           rewrite lookup_key_update, decide_True by done. by rewrite Hk.
        -- apply Hr2. rewrite Hr. by apply list_lookup_middle.
    + destruct (subscribe_other s k' Hne) as (Hl1 & Hr1 & e1 & Ht1 & Hf1).
      rewrite Ht in Hl1. simpl in Hl1. rewrite Hk in Hl1.
      destruct (table (subscribe target this s k') target) as [d1|] eqn:Ht';
        [simpl in Hl1|done].
      destruct (IH _ d1 info Hnd Ht' Hl1) as (e2 & Ht2 & Hf2 & Hd2).
      rewrite subscribe_env in Hf2, Hd2.
      exists (e1 ++ e2). split; [by rewrite Ht2, Ht1, app_assoc|]. split.
      * rewrite fires_at_app, Hf1, Hf2. simpl.
        destruct (decide (k ∈ ks)) as [Hin|Hnin].
        -- rewrite decide_True; [done|]. by apply list_elem_of_further.
        -- rewrite decide_False; [done|].
           intros [?|?]%elem_of_cons; congruence.
      * intros [?|Hin]%elem_of_cons; [congruence|]. by apply Hd2.
Qed.
End activation_loop.

(** ** Change notifications *)

Section propagation.
Variable e : environment.

Lemma react_state id r :
  isDisposed r = false →
  (react e id r).1
  = {| derivation := derivation r; receiver := receiver r;
       lastValue := e (derivation r) (receiver r);
       onChange := onChange r; isDisposed := false |}.
Proof.
  intros Hd. unfold react. rewrite Hd. case_bool_decide as Heq; simpl; [|done].
  rewrite Heq. destruct r; simpl in *; by subst.
Qed.

Lemma react_fires id r :
  isDisposed r = false →
  fires_at (OnChange id) (react e id r).2
  = if negb (lastValue r) && e (derivation r) (receiver r)
    then match boundFunction (onChange r) with
         | Some g => [(g, boundThis (onChange r),
                       default [] (boundParameters (onChange r)))]
         | None => []
         end
    else [].
Proof.
  intros Hd. unfold react, notify. rewrite Hd.
  destruct (lastValue r), (e (derivation r) (receiver r)); simpl; try done.
  destruct (boundFunction (onChange r)); simpl; [|done].
  by rewrite decide_True.
Qed.

Lemma react_fires_other id id' r :
  id' ≠ id → fires_at (OnChange id) (react e id' r).2 = [].
Proof.
  intros Hne. unfold react, notify. destruct (isDisposed r); [done|].
  case_bool_decide; [done|]. simpl.
  destruct (e (derivation r) (receiver r)); [|done].
  destruct (boundFunction (onChange r)); [|done]. simpl.
  rewrite decide_False; [done|]. congruence.
Qed.

Lemma react_quiet id r x t :
  (∀ j, x ≠ OnChange j) →
  fires_at x (react e id r).2 = [] ∧ installs t (react e id r).2 = [].
Proof.
  intros Hx. unfold react, notify. destruct (isDisposed r); [done|].
  case_bool_decide; [done|]. simpl.
  destruct (e (derivation r) (receiver r)); [|done].
  destruct (boundFunction (onChange r)); [|done]. simpl.
  rewrite decide_False; [done|]. intros ?. by eapply Hx.
Qed.

Lemma notifications_fires id rs :
  fires_at (OnChange id) (concat (imap (react e) rs).*2)
  = match rs !! id with
    | Some r => fires_at (OnChange id) (react e id r).2
    | None => []
    end.
Proof.
  induction rs as [|r rs IH] using rev_ind; [done|].
  rewrite imap_app, fmap_app, concat_app, fires_at_app, IH. simpl.
  rewrite app_nil_r, Nat.add_0_r.
  destruct (decide (id = length rs)) as [->|Hne].
  - rewrite lookup_ge_None_2 by done. simpl.
    by rewrite list_lookup_middle.
  - rewrite react_fires_other by done. rewrite app_nil_r.
    destruct (decide (id < length rs)) as [Hlt|Hge].
    + by rewrite lookup_app_l.
    + rewrite !lookup_ge_None_2; [done| |lia].
      rewrite length_app. simpl. lia.
Qed.

Lemma notifications_quiet rs x t :
  (∀ j, x ≠ OnChange j) →
  fires_at x (concat (imap (react e) rs).*2) = []
  ∧ installs t (concat (imap (react e) rs).*2) = [].
Proof.
  intros Hx. induction rs as [|r rs [IH1 IH2]] using rev_ind; [done|].
  rewrite imap_app, fmap_app, concat_app, fires_at_app, installs_app, IH1, IH2.
  simpl. rewrite !app_nil_r. by apply react_quiet.
Qed.

Lemma propagate_spec s :
  let s' := propagate e s in
  heap s' = heap s ∧ whenMap s' = whenMap s ∧ env s' = e
  ∧ (∀ i, reactions s' !! i = (λ r, (react e i r).1) <$> reactions s !! i)
  ∧ trace s' = trace s ++ concat (imap (react e) (reactions s)).*2.
Proof.
  simpl. unfold propagate. simpl. repeat split.
  intros i. by rewrite list_lookup_fmap, list_lookup_imap, <-option_fmap_compose.
Qed.
End propagation.

Lemma propagate_preserved e s : preserved s (propagate e s).
Proof.
  destruct (propagate_spec e s) as (Hh & Hm & _ & Hr & Htr).
  assert (∀ t, table (propagate e s) t = table s t) as Htab.
  { intros t. unfold table. by rewrite Hm. }
  split.
  - done.
  - intros t. by rewrite Htab.
  - intros t k. by rewrite Htab.
  - intros t k. by rewrite Htab.
  - unfold propagate. simpl. by rewrite length_fmap, length_imap.
  - eexists. split; [exact Htr|]. intros t.
    by apply (notifications_quiet e (reactions s) (Immediately 0 "") t).
Qed.

Lemma run_cons s a l : run s (a :: l) = run (perform s a) l.
Proof. done. Qed.

Lemma run_app s l1 l2 : run s (l1 ++ l2) = run (run s l1) l2.
Proof. apply foldl_app. Qed.

(** The applications made by one observation over a sequence of changes:
    one for each false-to-true step of the derived value. *)
Lemma observation_fires sid g envs s r :
  reactions s !! sid = Some r → isDisposed r = false →
  boundFunction (onChange r) = Some g →
  ∃ evs, trace (run s (Change <$> envs)) = trace s ++ evs
    ∧ fires_at (OnChange sid) evs
      = replicate
          (rising (lastValue r) ((λ e, e (derivation r) (receiver r)) <$> envs))
          (g, boundThis (onChange r), default [] (boundParameters (onChange r))).
Proof.
  revert s r. induction envs as [|e envs IH]; intros s r Hr Hd Hg.
  - exists []. by rewrite app_nil_r.
  - rewrite fmap_cons, run_cons. cbn [perform rising fmap list_fmap].
    destruct (propagate_spec e s) as (_ & _ & _ & Hrs & Htr).
    assert (reactions (propagate e s) !! sid = Some (react e sid r).1) as Hsid
      by (by rewrite Hrs, Hr).
    rewrite react_state in Hsid by done.
    destruct (IH _ _ Hsid eq_refl Hg) as (evs & Htr' & Hf). simpl in Hf.
    eexists. split; [by rewrite Htr', Htr, <-app_assoc|].
    rewrite fires_at_app, Hf, notifications_fires, Hr, react_fires by done.
    rewrite Hg, replicate_add.
    by destruct (negb (lastValue r) && e (derivation r) (receiver r)).
Qed.

(** ** Property lookup after [Object.defineProperty] *)

Lemma getOwnProperty_defineProperty h t name v :
  getOwnProperty (defineProperty h t name v) t name = Some v.
Proof.
  unfold getOwnProperty, defineProperty.
  destruct (h !! t) as [ob|]; rewrite lookup_insert_eq; simpl.
  - apply lookup_insert_eq.
  - apply lookup_singleton_eq.
Qed.

Lemma get_defineProperty h t name v :
  get (defineProperty h t name v) t name = Some v.
Proof. unfold get. by rewrite getOwnProperty_defineProperty. Qed.

Lemma getOwnProperty_defineProperty_ne h t name v o name' :
  name ≠ name' →
  getOwnProperty (defineProperty h t name v) o name' = getOwnProperty h o name'.
Proof.
  intros Hne. unfold getOwnProperty, defineProperty.
  destruct (decide (o = t)) as [->|Ho].
  - destruct (h !! t) as [ob|]; rewrite lookup_insert_eq; simpl.
    + by apply lookup_insert_ne.
    + by apply lookup_singleton_ne.
  - destruct (h !! t) as [ob|]; by rewrite lookup_insert_ne.
Qed.

Lemma get_defineProperty_ne h t name v o name' :
  name ≠ name' → get (defineProperty h t name v) o name' = get h o name'.
Proof.
  intros Hne. unfold get.
  rewrite getOwnProperty_defineProperty_ne by done.
  destruct (getOwnProperty h o name'); [done|].
  assert (∀ l, foldr (λ p rest,
                 match getOwnProperty (defineProperty h t name v) p name' with
                 | Some f => Some f
                 | None => rest
                 end) None l
             = foldr (λ p rest,
                 match getOwnProperty h p name' with
                 | Some f => Some f
                 | None => rest
                 end) None l) as Hfold.
  { induction l as [|p l IH]; simpl; [done|].
    by rewrite getOwnProperty_defineProperty_ne, IH. }
  unfold defineProperty. destruct (decide (o = t)) as [->|Ho].
  - destruct (h !! t) as [ob|] eqn:Hob; rewrite lookup_insert_eq; simpl; [|done].
    specialize (Hfold (prototypeChain ob)). unfold defineProperty in Hfold.
    by rewrite Hob in Hfold.
  - destruct (h !! t) as [ob|] eqn:Hob; rewrite lookup_insert_ne by done.
    + destruct (h !! o) as [ob'|]; [|done].
      specialize (Hfold (prototypeChain ob')). unfold defineProperty in Hfold.
      by rewrite Hob in Hfold.
    + destruct (h !! o) as [ob'|]; [|done].
      specialize (Hfold (prototypeChain ob')). unfold defineProperty in Hfold.
      by rewrite Hob in Hfold.
Qed.

(** ** Decoration *)

Lemma table_default s t : default ∅ (whenMap s) !! t = table s t.
Proof. unfold table. by destruct (whenMap s). Qed.

Lemma decorate_registered w target propertyName descriptor s d :
  table s target = Some d →
  decorate w target propertyName descriptor s
  = if has_key propertyName d then Normal descriptor s
    else Normal descriptor
           (modify_table (assign propertyName (recorded w descriptor)) target s).
Proof.
  intros Ht. unfold decorate. rewrite table_default, Ht.
  unfold table in Ht. destruct (whenMap s) as [m|] eqn:Hm; [|done]. simpl.
  rewrite (with_whenMap_id s m Hm). unfold register. done.
Qed.

Lemma register_state w target propertyName descriptor d s :
  table s target = Some d →
  ∃ s', register w target propertyName descriptor d s = Normal descriptor s'
    ∧ heap s' = heap s ∧ trace s' = trace s ∧ env s' = env s
    ∧ reactions s' = reactions s
    ∧ (∀ t, table s' t
            = if decide (target = t)
              then Some (if has_key propertyName d then d
                         else d ++ [(propertyName, recorded w descriptor)])
              else table s t).
Proof.
  intros Ht. unfold register. destruct (has_key propertyName d) eqn:Hin.
  - eexists. split; [done|]. repeat split; try done.
    intros t. case_decide; by subst.
  - eexists. split; [done|].
    rewrite heap_modify_table, trace_modify_table, env_modify_table,
      reactions_modify_table.
    repeat split; try done. intros t. rewrite table_modify_table.
    case_decide; [subst|done]. rewrite Ht. simpl.
    apply has_key_false in Hin as [Hin _]. by rewrite assign_fresh.
Qed.

(** The first decoration of a class, in full. *)
Lemma decorate_unregistered w target propertyName descriptor s :
  table s target = None →
  let c := decorate w target propertyName descriptor s in
  heap (final c)
  = foldl (λ h p, defineProperty h target p.1 p.2) (heap s)
      (wrappers_for w target s)
  ∧ trace (final c)
    = trace s
      ++ ((λ p, DefineProperty target p.1 p.2) <$> wrappers_for w target s)
  ∧ env (final c) = env s ∧ reactions (final c) = reactions s
  ∧ (∀ t, t ≠ target → table (final c) t = table s t)
  ∧ match get (heap s) target (initFunctionName w),
          get (heap s) target (deinitFunctionName w) with
    | Some _, Some _ =>
        c = Normal descriptor (final c)
        ∧ table (final c) target
          = Some (if has_key propertyName [] then []
                  else [(propertyName, recorded w descriptor)])
    | Some _, None =>
        c = Thrown "No deinitializer function is provided for @when" (final c)
        ∧ table (final c) target = Some []
    | None, _ =>
        c = Thrown "No initializer function is provided for @when" (final c)
        ∧ table (final c) target = Some []
    end.
Proof.
  intros Ht. simpl. unfold decorate, wrappers_for.
  rewrite table_default, Ht. simpl.
  assert (∀ h tr t, t ≠ target →
            table {| heap := h;
                     whenMap := Some (<[target:=[]]> (default ∅ (whenMap s)));
                     reactions := reactions s; env := env s; trace := tr |} t
            = table s t) as Hother.
  { intros h tr t Hne. unfold table at 1. simpl.
    rewrite lookup_insert_ne by done. apply table_default. }
  assert (∀ h tr,
            table {| heap := h;
                     whenMap := Some (<[target:=[]]> (default ∅ (whenMap s)));
                     reactions := reactions s; env := env s; trace := tr |} target
            = Some []) as Hself.
  { intros h tr. unfold table. simpl. apply lookup_insert_eq. }
  destruct (get (heap s) target (initFunctionName w)) as [oi|];
    [destruct (get (heap s) target (deinitFunctionName w)) as [od|]|]; simpl.
  - unfold emit, with_heap. simpl.
    edestruct (register_state w target propertyName descriptor []) as
      (s' & -> & Hh & Htr & He & Hr & Htab); [apply Hself|]. simpl.
    rewrite Hh, Htr, He, Hr. simpl. rewrite <-app_assoc. simpl.
    repeat split; try done.
    + intros t Hne. rewrite Htab, decide_False by done. by apply Hother.
    + rewrite Htab, decide_True by done. done.
  - unfold emit, with_heap. simpl.
    repeat split; try done. intros t Hne. by apply Hother.
  - rewrite app_nil_r. unfold with_whenMap. simpl.
    repeat split; try done. intros t Hne. by apply Hother.
Qed.


(** ** Configuration errors *)

(** C5. Decorating a class that is not yet in the registry throws, at
    decoration time, when the class has nothing under the configured init
    name or nothing under the configured deinit name; no binding is
    recorded. *)
Theorem missing_lifecycle_hook_throws w target propertyName descriptor s :
  table s target = None →
  get (heap s) target (initFunctionName w) = None
  ∨ get (heap s) target (deinitFunctionName w) = None →
  ∃ s',
    decorate w target propertyName descriptor s
    = Thrown (match get (heap s) target (initFunctionName w) with
              | None => "No initializer function is provided for @when"
              | Some _ => "No deinitializer function is provided for @when"
              end) s'
    ∧ table s' target = Some [].
Proof.
  intros Ht Hmissing.
  destruct (decorate_unregistered w target propertyName descriptor s Ht)
    as (_ & _ & _ & _ & _ & Hc).
  exists (final (decorate w target propertyName descriptor s)).
  destruct (get (heap s) target (initFunctionName w)) as [oi|]; [|done].
  destruct (get (heap s) target (deinitFunctionName w)) as [od|]; [|done].
  by destruct Hmissing.
Qed.

Lemma missing_lifecycle_hook_throws_witness :
  ∃ s',
    decorate Scenario.bound Scenario.D "m" (Scenario.method 22) Scenario.initial
    = Thrown "No deinitializer function is provided for @when" s'
    ∧ table s' Scenario.D = Some [].
Proof.
  apply (missing_lifecycle_hook_throws Scenario.bound Scenario.D "m"
           (Scenario.method 22) Scenario.initial).
  - reflexivity.
  - right. reflexivity.
Defined.

(** C9. When the init hook exists and the deinit hook does not, the
    decoration throws after it has created the (empty) table of the class
    and installed the init wrapper; no deinit wrapper is installed.  Any
    later decoration on that class returns normally without touching the
    heap, and runs the registration step on the table. *)
Theorem failed_decoration_is_kept w target propertyName descriptor s oi :
  table s target = None →
  get (heap s) target (initFunctionName w) = Some oi →
  get (heap s) target (deinitFunctionName w) = None →
  ∃ s',
    decorate w target propertyName descriptor s
    = Thrown "No deinitializer function is provided for @when" s'
    ∧ table s' target = Some []
    ∧ get (heap s') target (initFunctionName w) = Some (InitWrapper target oi)
    ∧ get (heap s') target (deinitFunctionName w) = None
    ∧ installs target (events_since s s')
      = [(initFunctionName w, InitWrapper target oi)]
    ∧ ∀ w' propertyName' descriptor',
        ∃ s'',
          decorate w' target propertyName' descriptor' s'
          = Normal descriptor' s''
          ∧ heap s'' = heap s' ∧ trace s'' = trace s'
          ∧ table s'' target
            = Some (if inherited propertyName'
                    then []
                    else [(propertyName', recorded w' descriptor')]).
Proof.
  intros Ht Hinit Hdeinit.
  destruct (decorate_unregistered w target propertyName descriptor s Ht)
    as (Hh & Htr & _ & _ & _ & Hc).
  unfold wrappers_for in Hh, Htr. rewrite Hinit, Hdeinit in Hh, Htr, Hc.
  destruct Hc as [Hc Htab]. simpl in Hh, Htr.
  exists (final (decorate w target propertyName descriptor s)).
  split; [done|]. split; [done|]. rewrite Hh.
  split; [apply get_defineProperty|].
  split.
  { rewrite get_defineProperty_ne; [done|]. congruence. }
  split.
  { rewrite (events_since_app _ _ _ Htr). simpl. by rewrite decide_True. }
  intros w' propertyName' descriptor'.
  rewrite (decorate_registered _ _ _ _ _ _ Htab).
  unfold has_key. rewrite bool_decide_eq_false_2 by apply not_elem_of_nil.
  simpl. destruct (inherited propertyName') eqn:Hin.
  - eexists. repeat split; done.
  - eexists. split; [done|].
    rewrite heap_modify_table, trace_modify_table, table_modify_table.
    rewrite decide_True, Htab by done. by rewrite Hh.
Qed.

Lemma failed_decoration_is_kept_witness :
  ∃ s',
    decorate Scenario.bound Scenario.D "m" (Scenario.method 22)
      Scenario.initial
    = Thrown "No deinitializer function is provided for @when" s'
    ∧ table s' Scenario.D = Some []
    ∧ get (heap s') Scenario.D "componentDidMount"
      = Some (InitWrapper Scenario.D (Native 20))
    ∧ get (heap s') Scenario.D "componentWillUnmount" = None
    ∧ installs Scenario.D (events_since Scenario.initial s')
      = [("componentDidMount", InitWrapper Scenario.D (Native 20))]
    ∧ ∀ w' propertyName' descriptor',
        ∃ s'',
          decorate w' Scenario.D propertyName' descriptor' s'
          = Normal descriptor' s''
          ∧ heap s'' = heap s' ∧ trace s'' = trace s'
          ∧ table s'' Scenario.D
            = Some (if inherited propertyName'
                    then []
                    else [(propertyName', recorded w' descriptor')]).
Proof.
  apply (failed_decoration_is_kept Scenario.bound Scenario.D "m"
           (Scenario.method 22) Scenario.initial (Native 20));
    reflexivity.
Defined.

(** C10. Once a class has a table, a decoration on it does not read the
    hook names it was given: two decorators that differ only in
    [initFunctionName] and [deinitFunctionName] have the same effect and
    the same result, the heap is left as the first decoration of the class
    made it, and nothing is defined. *)
Theorem later_hook_names_are_ignored
    p ps i d i' d' target propertyName descriptor s :
  is_Some (table s target) →
  let first := when (ParamsForm {| IParams.predicate := p;
                                   IParams.parameters := ps;
                                   IParams.initFunctionName := i;
                                   IParams.deinitFunctionName := d |}) in
  let later := when (ParamsForm {| IParams.predicate := p;
                                   IParams.parameters := ps;
                                   IParams.initFunctionName := i';
                                   IParams.deinitFunctionName := d' |}) in
  decorate later target propertyName descriptor s
  = decorate first target propertyName descriptor s
  ∧ heap (final (decorate later target propertyName descriptor s)) = heap s
  ∧ trace (final (decorate later target propertyName descriptor s)) = trace s
  ∧ ∀ s0 w0 name0 descriptor0,
      table s0 target = None →
      s = final (decorate w0 target name0 descriptor0 s0) →
      heap (final (decorate later target propertyName descriptor s))
      = foldl (λ h p, defineProperty h target p.1 p.2) (heap s0)
          (wrappers_for w0 target s0).
Proof.
  intros [dict Ht] first later.
  rewrite !(decorate_registered _ _ _ _ _ _ Ht).
  assert (heap (final (if has_key propertyName dict
                       then Normal descriptor s
                       else Normal descriptor
                              (modify_table
                                 (assign propertyName (recorded later descriptor))
                                 target s))) = heap s) as Hheap.
  { destruct (has_key propertyName dict); simpl; [done|].
    apply heap_modify_table. }
  split; [done|]. split; [done|]. split.
  { destruct (has_key propertyName dict); simpl; [done|].
    apply trace_modify_table. }
  intros s0 w0 name0 descriptor0 Ht0 Hs. rewrite Hheap, Hs.
  by destruct (decorate_unregistered w0 target name0 descriptor0 s0 Ht0)
    as (Hh & _).
Qed.

Lemma later_hook_names_are_ignored_witness :
  let first := when (ParamsForm {| IParams.predicate := 0;
                                   IParams.parameters := None;
                                   IParams.initFunctionName := None;
                                   IParams.deinitFunctionName := None |}) in
  let later := when (ParamsForm {| IParams.predicate := 0;
                                   IParams.parameters := None;
                                   IParams.initFunctionName := Some "mount";
                                   IParams.deinitFunctionName := Some "unmount" |}) in
  decorate later Scenario.C "n" (Scenario.method 14) Scenario.decorated
  = decorate first Scenario.C "n" (Scenario.method 14) Scenario.decorated
  ∧ heap (final (decorate later Scenario.C "n" (Scenario.method 14)
                   Scenario.decorated))
    = heap Scenario.decorated
  ∧ trace (final (decorate later Scenario.C "n" (Scenario.method 14)
                    Scenario.decorated))
    = trace Scenario.decorated
  ∧ ∀ s0 w0 name0 descriptor0,
      table s0 Scenario.C = None →
      Scenario.decorated = final (decorate w0 Scenario.C name0 descriptor0 s0) →
      heap (final (decorate later Scenario.C "n" (Scenario.method 14)
                     Scenario.decorated))
      = foldl (λ h p, defineProperty h Scenario.C p.1 p.2) (heap s0)
          (wrappers_for w0 Scenario.C s0).
Proof.
  apply (later_hook_names_are_ignored 0 None None None (Some "mount")
           (Some "unmount") Scenario.C "n" (Scenario.method 14)
           Scenario.decorated).
  eexists. vm_compute. reflexivity.
Defined.

(** ** Wrapping the lifecycle hooks *)

Lemma events_since_trans s s1 s2 e1 e2 :
  trace s1 = trace s ++ e1 → trace s2 = trace s1 ++ e2 →
  trace s2 = trace s ++ (e1 ++ e2).
Proof. intros H1 H2. by rewrite H2, H1, app_assoc. Qed.

Lemma call_preserved this name args s : preserved s (final (call this name args s)).
Proof.
  unfold call. destruct (get (heap s) this name); simpl.
  - apply apply_preserved.
  - apply preserved_refl.
Qed.

Lemma preserved_table_None s s' t :
  preserved s s' → table s t = None → table s' t = None.
Proof.
  intros Hp Ht. pose proof (preserved_keys _ _ Hp t) as Hk.
  rewrite Ht in Hk. by destruct (table s' t).
Qed.

Lemma preserved_table_Some s s' t :
  preserved s s' → is_Some (table s t) → is_Some (table s' t).
Proof.
  intros Hp [d Ht]. pose proof (preserved_keys _ _ Hp t) as Hk.
  rewrite Ht in Hk. destruct (table s' t); [eauto|done].
Qed.

Lemma installs_other_target (t target : obj) (ws : list (string * func)) :
  t ≠ target →
  installs t ((λ p, DefineProperty target p.1 p.2) <$> ws) = [].
Proof.
  intros Hne. induction ws as [|p ws IH]; simpl; [done|].
  rewrite decide_False by congruence. apply IH.
Qed.

Lemma installs_same_target (target : obj) (ws : list (string * func)) :
  installs target ((λ p, DefineProperty target p.1 p.2) <$> ws) = ws.
Proof.
  induction ws as [|[n f] ws IH]; simpl; [done|].
  rewrite decide_True by done. f_equal. apply IH.
Qed.

(** What one action defines on a class. *)
Lemma perform_installs s a t :
  ∃ evs, trace (perform s a) = trace s ++ evs
    ∧ (is_Some (table s t) →
       is_Some (table (perform s a) t) ∧ installs t evs = [])
    ∧ (table s t = None →
       match a with
       | Decorate w target _ _ =>
           if decide (target = t)
           then is_Some (table (perform s a) t)
                ∧ installs t evs = wrappers_for w t s
           else table (perform s a) t = None ∧ installs t evs = []
       | _ => table (perform s a) t = None ∧ installs t evs = []
       end).
Proof.
  destruct a as [w target name desc|this name args|e]; simpl.
  - destruct (table s target) as [d|] eqn:Htarget.
    + rewrite (decorate_registered _ _ _ _ _ _ Htarget).
      destruct (register_state w target name desc d s Htarget)
        as (s' & Hreg & _ & Htr & _ & _ & Htab).
      unfold register in Hreg.
      assert (final (if has_key name d then Normal desc s
                     else Normal desc
                            (modify_table (assign name (recorded w desc))
                               target s)) = s') as ->.
      { destruct (has_key name d); by simplify_eq. }
      exists []. rewrite app_nil_r. split; [done|]. split.
      * intros Hs. split; [|done]. rewrite Htab. by case_decide.
      * intros Hnone. rewrite decide_False by congruence.
        rewrite Htab, decide_False by congruence. done.
    + destruct (decorate_unregistered w target name desc s Htarget)
        as (_ & Htr & _ & _ & Hother & Hc).
      eexists. split; [exact Htr|].
      assert (is_Some (table (final (decorate w target name desc s)) target))
        as Hsome.
      { destruct (get (heap s) target (initFunctionName w));
          [destruct (get (heap s) target (deinitFunctionName w))|];
          destruct Hc as [_ ->]; eauto. }
      split.
      * intros Hs. assert (t ≠ target) as Hne.
        { intros ->. rewrite Htarget in Hs. by destruct Hs. }
        rewrite Hother by done. split; [done|].
        by apply installs_other_target.
      * intros Hnone. destruct (decide (target = t)) as [->|Hne].
        -- split; [done|]. apply installs_same_target.
        -- rewrite Hother by done. split; [done|].
           by apply installs_other_target.
  - pose proof (call_preserved this name args s) as Hp.
    destruct (preserved_trace _ _ Hp) as (evs & Htr & Hi).
    exists evs. split; [done|]. split.
    + intros Hs. split; [|done]. by eapply preserved_table_Some.
    + intros Hnone. split; [|done]. by eapply preserved_table_None.
  - pose proof (propagate_preserved e s) as Hp.
    destruct (preserved_trace _ _ Hp) as (evs & Htr & Hi).
    exists evs. split; [done|]. split.
    + intros Hs. split; [|done]. by eapply preserved_table_Some.
    + intros Hnone. split; [|done]. by eapply preserved_table_None.
Qed.

Lemma run_registered_installs l s t :
  is_Some (table s t) →
  ∃ evs, trace (run s l) = trace s ++ evs ∧ installs t evs = [].
Proof.
  revert s. induction l as [|a l IH]; intros s Hs.
  - exists []. by rewrite app_nil_r.
  - rewrite run_cons.
    destruct (perform_installs s a t) as (e1 & Ht1 & Hreg & _).
    destruct (Hreg Hs) as [Hs' Hi1].
    destruct (IH _ Hs') as (e2 & Ht2 & Hi2).
    exists (e1 ++ e2). split; [by eapply events_since_trans|].
    by rewrite installs_app, Hi1, Hi2.
Qed.

Lemma wrappers_for_wrapped_once w target s :
  wrapped_once target (wrappers_for w target s).
Proof.
  unfold wrapped_once, wrappers_for.
  destruct (get (heap s) target (initFunctionName w)) as [oi|]; [|by left].
  destruct (get (heap s) target (deinitFunctionName w)) as [od|];
    right; [right|left]; eauto.
Qed.

Lemma run_unregistered_installs l s t :
  table s t = None →
  ∃ evs, trace (run s l) = trace s ++ evs ∧ wrapped_once t (installs t evs).
Proof.
  revert s. induction l as [|a l IH]; intros s Hs.
  - exists []. rewrite app_nil_r. split; [done|]. by left.
  - rewrite run_cons.
    destruct (perform_installs s a t) as (e1 & Ht1 & _ & Hunreg).
    specialize (Hunreg Hs).
    assert ((is_Some (table (perform s a) t)
             ∧ ∃ w, installs t e1 = wrappers_for w t s)
            ∨ (table (perform s a) t = None ∧ installs t e1 = [])) as [[H1 [w H2]]|[H1 H2]].
    { destruct a as [w target ? ?| |]; [|by right..].
      destruct (decide (target = t)) as [->|?]; [left|by right].
      destruct Hunreg as [? ?]. eauto. }
    + destruct (run_registered_installs l _ t H1) as (e2 & Ht2 & Hi2).
      exists (e1 ++ e2). split; [by eapply events_since_trans|].
      rewrite installs_app, Hi2, app_nil_r, H2.
      apply wrappers_for_wrapped_once.
    + destruct (IH _ H1) as (e2 & Ht2 & Hi2).
      exists (e1 ++ e2). split; [by eapply events_since_trans|].
      by rewrite installs_app, H2.
Qed.

(** C6. Over any run of decorations, calls and changes, each class gets
    its lifecycle hooks wrapped at most once: nothing is defined on a class
    that already has a table, and on a class without one the run defines
    nothing, or one init wrapper, or one init wrapper and one deinit
    wrapper.  When the class has both hooks, its first decoration defines
    exactly one wrapper for each, around the functions found then, and no
    later action defines anything on it. *)
Theorem lifecycle_hooks_wrapped_once s l target :
  (is_Some (table s target) →
   installs target (events_since s (run s l)) = [])
  ∧ (table s target = None →
     wrapped_once target (installs target (events_since s (run s l))))
  ∧ ∀ w propertyName descriptor oi od,
      table s target = None →
      get (heap s) target (initFunctionName w) = Some oi →
      get (heap s) target (deinitFunctionName w) = Some od →
      installs target
        (events_since s (run s (Decorate w target propertyName descriptor :: l)))
      = [(initFunctionName w, InitWrapper target oi);
         (deinitFunctionName w, DeinitWrapper target od)].
Proof.
  split; [|split].
  - intros Hs. destruct (run_registered_installs l s target Hs) as (evs & Htr & Hi).
    by rewrite (events_since_app _ _ _ Htr).
  - intros Hs. destruct (run_unregistered_installs l s target Hs) as (evs & Htr & Hi).
    by rewrite (events_since_app _ _ _ Htr).
  - intros w propertyName descriptor oi od Hs Hinit Hdeinit. rewrite run_cons.
    destruct (perform_installs s (Decorate w target propertyName descriptor) target)
      as (e1 & Ht1 & _ & Hunreg).
    specialize (Hunreg Hs). simpl in Hunreg.
    rewrite decide_True in Hunreg by done. destruct Hunreg as [Hs' Hi1].
    destruct (run_registered_installs l _ target Hs') as (e2 & Ht2 & Hi2).
    rewrite (events_since_app _ _ (e1 ++ e2)) by (by eapply events_since_trans).
    rewrite installs_app, Hi1, Hi2, app_nil_r.
    unfold wrappers_for. by rewrite Hinit, Hdeinit.
Qed.

Lemma lifecycle_hooks_wrapped_once_witness :
  let l := [Decorate Scenario.other Scenario.C "render" (Scenario.method 13);
            Call Scenario.a "componentDidMount" [];
            Decorate Scenario.bound Scenario.C "n" (Scenario.method 14)] in
  installs Scenario.C
    (events_since Scenario.initial
       (run Scenario.initial
          (Decorate Scenario.bound Scenario.C "m" (Scenario.method 12) :: l)))
  = [("componentDidMount", InitWrapper Scenario.C (Native 10));
     ("componentWillUnmount", DeinitWrapper Scenario.C (Native 11))].
Proof.
  intros l.
  apply (lifecycle_hooks_wrapped_once Scenario.initial l Scenario.C);
    reflexivity.
Defined.

(** ** Decorating a method twice *)

(** After a decoration that returned, the [in] test on the method name
    succeeds. *)
Lemma decorated_name_is_found w target propertyName descriptor s s' :
  decorate w target propertyName descriptor s = Normal descriptor s' →
  ∃ d, table s' target = Some d ∧ has_key propertyName d = true.
Proof.
  intros Hdec. destruct (table s target) as [d|] eqn:Ht.
  - rewrite (decorate_registered _ _ _ _ _ _ Ht) in Hdec.
    destruct (has_key propertyName d) eqn:Hin; simplify_eq.
    + by exists d.
    + eexists. rewrite table_modify_table, decide_True, Ht by done.
      split; [done|]. apply has_key_false in Hin as [Hin _].
      rewrite assign_fresh by done. apply has_key_own.
      unfold keys. rewrite fmap_app. apply elem_of_app. right.
      apply list_elem_of_here.
  - destruct (decorate_unregistered w target propertyName descriptor s Ht)
      as (_ & _ & _ & _ & _ & Hc).
    rewrite Hdec in Hc. simpl in Hc.
    destruct (get (heap s) target (initFunctionName w));
      [destruct (get (heap s) target (deinitFunctionName w))|];
      destruct Hc as [Hc Htab]; [|done..].
    eexists. split; [exact Htab|].
    destruct (has_key propertyName []) eqn:Hin; [done|].
    apply has_key_own. apply list_elem_of_here.
Qed.

(** The second decoration of a method name returns its descriptor and
    changes nothing, whatever the name. *)
Lemma redecoration_is_noop w w' target propertyName descriptor descriptor' s s' :
  decorate w target propertyName descriptor s = Normal descriptor s' →
  decorate w' target propertyName descriptor' s' = Normal descriptor' s'.
Proof.
  intros Hdec.
  destruct (decorated_name_is_found _ _ _ _ _ _ Hdec) as (d & Ht & Hin).
  by rewrite (decorate_registered _ _ _ _ _ _ Ht), Hin.
Qed.

(** For a name that is not one of [Object.prototype]'s and has no binding
    yet, the binding of the first decoration is the one that stays. *)
Lemma first_registration_wins w w' target propertyName descriptor descriptor' s s' :
  inherited propertyName = false →
  table s target ≫= lookup_key propertyName = None →
  decorate w target propertyName descriptor s = Normal descriptor s' →
  table (final (decorate w' target propertyName descriptor' s')) target
    ≫= lookup_key propertyName
  = Some (recorded w descriptor).
Proof.
  intros Hproto Hfresh Hdec.
  rewrite (redecoration_is_noop _ w' _ _ _ descriptor' _ _ Hdec). simpl.
  destruct (table s target) as [d|] eqn:Ht.
  - simpl in Hfresh. apply lookup_key_None in Hfresh.
    rewrite (decorate_registered _ _ _ _ _ _ Ht) in Hdec.
    assert (has_key propertyName d = false) as Hin by (by apply has_key_false).
    rewrite Hin in Hdec. simplify_eq.
    rewrite table_modify_table, decide_True, Ht by done. simpl.
    rewrite assign_fresh, lookup_key_app by done.
    apply lookup_key_None in Hfresh. rewrite Hfresh. simpl.
    by rewrite decide_True.
  - destruct (decorate_unregistered w target propertyName descriptor s Ht)
      as (_ & _ & _ & _ & _ & Hc).
    rewrite Hdec in Hc. simpl in Hc.
    destruct (get (heap s) target (initFunctionName w));
      [destruct (get (heap s) target (deinitFunctionName w))|];
      destruct Hc as [Hc Htab]; [|done..].
    rewrite Htab. simpl.
    assert (has_key propertyName [] = false) as ->.
    { apply has_key_false. split; [apply not_elem_of_nil|done]. }
    simpl. by rewrite decide_True.
Qed.

(** C7, at the method name [toString].  The empty table inherits
    [toString] from [Object.prototype], so the [in] test of the first
    decoration already succeeds: both decorations return the descriptor and
    no Binding Descriptor is ever recorded for the method.  Activation with
    a true predicate then applies nothing. *)
Theorem inherited_method_name_is_never_bound :
  let descriptor := Scenario.method 13 in
  let s1 := final (decorate Scenario.bound Scenario.C "toString" descriptor
                     Scenario.initial) in
  decorate Scenario.bound Scenario.C "toString" descriptor Scenario.initial
  = Normal descriptor s1
  ∧ decorate Scenario.bound Scenario.C "toString" descriptor s1
    = Normal descriptor s1
  ∧ table s1 Scenario.C = Some []
  ∧ events_since s1
      (run s1 [Change Scenario.always; Call Scenario.a "componentDidMount" []])
    = [Invoke 10 Scenario.a []].
Proof. vm_compute. done. Qed.

(** ** The wrappers call through *)

Lemma activation_loop_events target this ks s :
  ∃ evs, trace (foldl (subscribe target this) s ks) = trace s ++ evs
    ∧ Forall (λ ev, ∃ id p f args k,
                ev = Observe id p this
                ∨ ev = Fire (Immediately target k) f this args) evs.
Proof.
  revert s. induction ks as [|k ks IH]; intros s; simpl.
  - exists []. by rewrite app_nil_r.
  - destruct (IH (subscribe target this s k)) as (e2 & Ht2 & Hf2).
    assert (∃ e1, trace (subscribe target this s k) = trace s ++ e1
              ∧ Forall (λ ev, ∃ id p f args k,
                          ev = Observe id p this
                          ∨ ev = Fire (Immediately target k) f this args) e1)
      as (e1 & Ht1 & Hf1).
    { destruct (table s target ≫= lookup_key k) as [info|] eqn:Hlook.
      2:{ rewrite subscribe_None by done. exists []. by rewrite app_nil_r. }
      destruct (table s target) as [d|] eqn:Ht; [simpl in Hlook|done].
      destruct (subscribe_Some target this s k d info Ht Hlook)
        as (_ & _ & _ & _ & Htr).
      eexists. split; [exact Htr|]. constructor.
      { exists (length (reactions s)), (predicate info), (Native 0), [], k.
        by left. }
      destruct (env s (predicate info) this); [|constructor].
      destruct (originalFunction info) as [g|]; constructor; [|constructor].
      exists 0, 0, g, (default [] (parameters info)), k. by right. }
    exists (e1 ++ e2). split; [by eapply events_since_trans|].
    by apply Forall_app.
Qed.

Lemma deactivation_loop_events target ks s :
  ∃ evs, trace (foldl (unsubscribe target) s ks) = trace s ++ evs
    ∧ Forall (λ ev, ∃ id, ev = Dispose id) evs.
Proof.
  revert s. induction ks as [|k ks IH]; intros s; simpl.
  - exists []. by rewrite app_nil_r.
  - destruct (IH (unsubscribe target s k)) as (e2 & Ht2 & Hf2).
    destruct (unsubscribe_spec target s k) as (_ & _ & _ & _ & e1 & Ht1 & Hf1).
    exists (e1 ++ e2). split; [by eapply events_since_trans|].
    by apply Forall_app.
Qed.

(** C8. After the first decoration of a class, the property under the init
    name is the activation wrapper around the function that was there
    before, and the one under the deinit name is the deactivation wrapper
    around the function that was there before.  Every application of a
    wrapper first applies that original function to the same receiver and
    the same arguments, in the state it was called in; what the wrapper
    records after that is only the start of observations and immediate
    calls (activation) or the calls of disposers (deactivation).  A user
    function as original records exactly its own run. *)
Theorem lifecycle_passthrough w target propertyName descriptor s oi od :
  table s target = None →
  get (heap s) target (initFunctionName w) = Some oi →
  get (heap s) target (deinitFunctionName w) = Some od →
  initFunctionName w ≠ deinitFunctionName w →
  let s1 := final (decorate w target propertyName descriptor s) in
  get (heap s1) target (initFunctionName w) = Some (InitWrapper target oi)
  ∧ get (heap s1) target (deinitFunctionName w) = Some (DeinitWrapper target od)
  ∧ ∀ this params s',
      (∃ evs,
         trace (apply (InitWrapper target oi) this params s')
         = trace (apply oi this params s') ++ evs
         ∧ Forall (λ ev, ∃ id p f args k,
                     ev = Observe id p this
                     ∨ ev = Fire (Immediately target k) f this args) evs)
      ∧ (∃ evs,
           trace (apply (DeinitWrapper target od) this params s')
           = trace (apply od this params s') ++ evs
           ∧ Forall (λ ev, ∃ id, ev = Dispose id) evs)
      ∧ ∀ id, apply (Native id) this params s'
              = emit [Invoke id this params] s'.
Proof.
  intros Ht Hinit Hdeinit Hne s1.
  destruct (decorate_unregistered w target propertyName descriptor s Ht)
    as (Hh & _).
  unfold wrappers_for in Hh. rewrite Hinit, Hdeinit in Hh. simpl in Hh.
  subst s1. rewrite Hh. split; [|split].
  - rewrite get_defineProperty_ne by done. apply get_defineProperty.
  - apply get_defineProperty.
  - intros this params s'. split; [|split]; [| |done].
    + simpl. destruct (table (apply oi this params s') target).
      * apply activation_loop_events.
      * exists []. by rewrite app_nil_r.
    + simpl. destruct (table (apply od this params s') target).
      * apply deactivation_loop_events.
      * exists []. by rewrite app_nil_r.
Qed.

Lemma lifecycle_passthrough_witness :
  let s1 := final (decorate Scenario.bound Scenario.C "m" (Scenario.method 12)
                     Scenario.initial) in
  get (heap s1) Scenario.C "componentDidMount"
  = Some (InitWrapper Scenario.C (Native 10))
  ∧ get (heap s1) Scenario.C "componentWillUnmount"
    = Some (DeinitWrapper Scenario.C (Native 11))
  ∧ ∀ this params s',
      (∃ evs,
         trace (apply (InitWrapper Scenario.C (Native 10)) this params s')
         = trace (apply (Native 10) this params s') ++ evs
         ∧ Forall (λ ev, ∃ id p f args k,
                     ev = Observe id p this
                     ∨ ev = Fire (Immediately Scenario.C k) f this args) evs)
      ∧ (∃ evs,
           trace (apply (DeinitWrapper Scenario.C (Native 11)) this params s')
           = trace (apply (Native 11) this params s') ++ evs
           ∧ Forall (λ ev, ∃ id, ev = Dispose id) evs)
      ∧ ∀ id, apply (Native id) this params s'
              = emit [Invoke id this params] s'.
Proof.
  apply (lifecycle_passthrough Scenario.bound Scenario.C "m"
           (Scenario.method 12) Scenario.initial (Native 10) (Native 11));
    [reflexivity | reflexivity | reflexivity | ].
  vm_compute. intros H. inversion H.
Defined.

(** ** Activation *)

(** The state in which the activation wrapper runs its loop, and the
    binding as it is found there. *)
Lemma activation_entry s target original this params d (k : string) info :
  table s target = Some d → NoDup (keys d) → lookup_key k d = Some info →
  let s1 := apply original this params s in
  ∃ d1 info1,
    table s1 target = Some d1 ∧ lookup_key k d1 = Some info1
    ∧ binding info1 = binding info ∧ env s1 = env s
    ∧ NoDup (for_in d1) ∧ k ∈ for_in d1
    ∧ apply (InitWrapper target original) this params s
      = foldl (subscribe target this) s1 (for_in d1).
Proof.
  intros Ht Hnd Hk s1.
  destruct (preserved_lookup s s1 target d k info
              (apply_preserved original this params s) Ht Hk)
    as (d1 & info1 & Ht1 & Hkeys & Hk1 & Hb).
  exists d1, info1. repeat split; try done.
  - apply apply_env.
  - apply for_in_NoDup. by rewrite Hkeys.
  - apply elem_of_for_in, lookup_key_is_Some. eauto.
  - simpl. fold s1. by rewrite Ht1.
Qed.

(** ** The disposer field *)

Lemma subscribe_table_other target this s (k : string) t :
  target ≠ t → table (subscribe target this s k) t = table s t.
Proof.
  intros Hne.
  destruct (table s target ≫= lookup_key k) as [info|] eqn:Hlook.
  2:{ by rewrite subscribe_None. }
  destruct (table s target) as [d|] eqn:Ht; [simpl in Hlook|done].
  destruct (subscribe_Some target this s k d info Ht Hlook)
    as (_ & _ & _ & Htab & _).
  by rewrite Htab, decide_False.
Qed.

Lemma activation_loop_table_other target this ks s t :
  target ≠ t → table (foldl (subscribe target this) s ks) t = table s t.
Proof.
  intros Hne. revert s. induction ks as [|k ks IH]; intros s; simpl; [done|].
  by rewrite IH, subscribe_table_other.
Qed.

Lemma deactivation_loop_whenMap target ks s :
  whenMap (foldl (unsubscribe target) s ks) = whenMap s.
Proof.
  revert s. induction ks as [|k ks IH]; intros s; simpl; [done|].
  rewrite IH. by destruct (unsubscribe_spec target s k) as (_ & _ & Hm & _).
Qed.

Lemma deactivation_loop_length target ks s :
  length (reactions (foldl (unsubscribe target) s ks)) = length (reactions s).
Proof.
  revert s. induction ks as [|k ks IH]; intros s; [done|].
  cbn [foldl]. rewrite IH.
  by destruct (unsubscribe_spec target s k) as (_ & _ & _ & Hlen & _).
Qed.

Lemma preserved_is_Some s s' t k :
  preserved s s' →
  is_Some (table s t ≫= lookup_key k) → is_Some (table s' t ≫= lookup_key k).
Proof.
  intros Hp [info Hk]. pose proof (preserved_binding _ _ Hp t k) as Hb.
  rewrite Hk in Hb. destruct (table s' t ≫= lookup_key k); [eauto|done].
Qed.

(** The activation loop leaves a disposer in every binding it visits. *)
Lemma activation_sets_disposer target this (k : string) ks s :
  k ∈ ks → is_Some (table s target ≫= lookup_key k) →
  is_Some ((table (foldl (subscribe target this) s ks) target
              ≫= lookup_key k) ≫= disposer).
Proof.
  revert s. induction ks as [|k' ks IH]; intros s Hin Hk.
  - by apply elem_of_nil in Hin.
  - simpl. destruct (decide (k' = k)) as [->|Hne].
    + apply (preserved_disposer _ _
               (foldl_preserved (subscribe target this) ks _
                  (subscribe_preserved target this))).
      destruct Hk as [info Hk].
      destruct (table s target) as [d|] eqn:Ht; [simpl in Hk|done].
      destruct (subscribe_Some target this s k d info Ht Hk)
        as (_ & _ & _ & Htab & _).
      rewrite Htab, decide_True by done. simpl.
      rewrite lookup_key_update, decide_True, Hk by done. simpl. eauto.
    + apply elem_of_cons in Hin as [?|Hin]; [congruence|].
      apply IH; [done|].
      eapply preserved_is_Some; [apply subscribe_preserved|done].
Qed.

Lemma or_never (P : Prop) : P ↔ P ∨ false = true.
Proof. split; [by left | by intros [?|?]]. Qed.

(** Applying a function changes the disposer of a binding only by setting
    it, and sets it exactly when the function reaches the activation loop
    of the class. *)
(** The activation loop never reaches a binding under a symbol. *)
Lemma subscribe_symbol target this s (k : string) t i :
  table (subscribe target this s k) t ≫= lookup_key (Sym i)
  = table s t ≫= lookup_key (Sym i).
Proof.
  destruct (decide (target = t)) as [<-|Hne];
    [|by rewrite subscribe_table_other].
  destruct (table s target ≫= lookup_key k) as [info|] eqn:Hlook.
  2:{ by rewrite subscribe_None. }
  destruct (table s target) as [d|] eqn:Ht; [simpl in Hlook|done].
  destruct (subscribe_Some target this s k d info Ht Hlook)
    as (_ & _ & _ & Htab & _).
  rewrite Htab, decide_True by done. simpl.
  rewrite lookup_key_update. by rewrite decide_False.
Qed.

Lemma activation_loop_symbol target this ks s t i :
  table (foldl (subscribe target this) s ks) t ≫= lookup_key (Sym i)
  = table s t ≫= lookup_key (Sym i).
Proof.
  revert s. induction ks as [|k ks IH]; intros s; simpl; [done|].
  by rewrite IH, subscribe_symbol.
Qed.

Lemma apply_symbol f this params s t i :
  table (apply f this params s) t ≫= lookup_key (Sym i)
  = table s t ≫= lookup_key (Sym i).
Proof.
  revert s. induction f as [id|target f IH|target f IH]; intros s.
  - reflexivity.
  - cbn [apply]. rewrite <-(IH s). set (s1 := apply f this params s).
    destruct (table s1 target); [|done]. apply activation_loop_symbol.
  - cbn [apply]. rewrite <-(IH s). set (s1 := apply f this params s).
    destruct (table s1 target); [|done].
    unfold table. by rewrite deactivation_loop_whenMap.
Qed.

Lemma apply_disposer f this params s target (k : string) info :
  table s target ≫= lookup_key k = Some info →
  ∃ info',
    table (apply f this params s) target ≫= lookup_key k = Some info'
    ∧ binding info' = binding info
    ∧ (is_Some (disposer info')
       ↔ is_Some (disposer info) ∨ activates target f = true).
Proof.
  revert s info. induction f as [id|t f IH|t f IH]; intros s info Hk.
  - exists info. simpl. split; [done|]. split; [done|]. apply or_never.
  - destruct (IH s info Hk) as (info1 & Hk1 & Hb1 & Hd1).
    cbn [apply activates]. set (s1 := apply f this params s) in *.
    destruct (decide (t = target)) as [->|Hne].
    + rewrite bool_decide_eq_true_2 by done.
      destruct (table s1 target) as [d1|] eqn:Ht1; [|done].
      assert (is_Some ((table (foldl (subscribe target this) s1 (for_in d1)) target
                          ≫= lookup_key k) ≫= disposer)) as Hset.
      { apply activation_sets_disposer.
        - apply elem_of_for_in, lookup_key_is_Some. simpl in Hk1. eauto.
        - rewrite Ht1. simpl in *. eauto. }
      pose proof (preserved_binding _ _
                    (foldl_preserved (subscribe target this) (for_in d1) s1
                       (subscribe_preserved target this)) target k) as Hb.
      rewrite Ht1 in Hb. simpl in Hb, Hk1. rewrite Hk1 in Hb.
      destruct (table (foldl (subscribe target this) s1 (for_in d1)) target
                  ≫= lookup_key k) as [info'|]; [|done].
      exists info'. split; [done|]. split.
      * simpl in Hb. congruence.
      * simpl in Hset. split; [by right | by intros _].
    + rewrite bool_decide_eq_false_2 by done. simpl.
      exists info1. split; [|done].
      destruct (table s1 t); [|done].
      by rewrite activation_loop_table_other.
  - destruct (IH s info Hk) as (info1 & Hk1 & Hb1 & Hd1).
    cbn [apply activates]. set (s1 := apply f this params s) in *.
    exists info1. split; [|done].
    destruct (table s1 t); [|done].
    unfold table. by rewrite deactivation_loop_whenMap.
Qed.

(** A decoration leaves every binding that exists as it is. *)
Lemma decorate_existing w target propertyName descriptor s t k info :
  table s t ≫= lookup_key k = Some info →
  table (final (decorate w target propertyName descriptor s)) t
    ≫= lookup_key k = Some info.
Proof.
  intros Hk. destruct (table s target) as [d|] eqn:Htarget.
  - rewrite (decorate_registered _ _ _ _ _ _ Htarget).
    destruct (has_key propertyName d) eqn:Hin; simpl; [done|].
    rewrite table_modify_table. case_decide; [subst|done].
    rewrite Htarget in Hk |- *. simpl in *.
    apply has_key_false in Hin as [Hin _].
    by rewrite assign_fresh, lookup_key_app, Hk.
  - destruct (decorate_unregistered w target propertyName descriptor s Htarget)
      as (_ & _ & _ & _ & Hother & _).
    rewrite Hother; [done|]. intros ->. by rewrite Htarget in Hk.
Qed.

Lemma perform_symbol s a t i info :
  table s t ≫= lookup_key (Sym i) = Some info →
  table (perform s a) t ≫= lookup_key (Sym i) = Some info.
Proof.
  intros Hk. destruct a as [w target name desc|this name args|e]; simpl.
  - by apply decorate_existing.
  - unfold call. destruct (get (heap s) this name) as [f|]; simpl; [|done].
    by rewrite apply_symbol.
  - destruct (propagate_spec e s) as (_ & Hm & _).
    unfold table in *. by rewrite Hm.
Qed.

(** A binding under a symbol is left as it was recorded. *)
Lemma run_symbol s l t i info :
  table s t ≫= lookup_key (Sym i) = Some info →
  table (run s l) t ≫= lookup_key (Sym i) = Some info.
Proof.
  revert s. induction l as [|a l IH]; intros s Hk; [done|].
  rewrite run_cons. by apply IH, perform_symbol.
Qed.

Lemma perform_disposer s a target (k : string) info :
  table s target ≫= lookup_key k = Some info →
  ∃ info',
    table (perform s a) target ≫= lookup_key k = Some info'
    ∧ binding info' = binding info
    ∧ (is_Some (disposer info')
       ↔ is_Some (disposer info) ∨ activated target s [a] = true).
Proof.
  intros Hk. destruct a as [w t name desc|this name args|e]; simpl.
  - exists info. split; [by apply decorate_existing|]. split; [done|].
    apply or_never.
  - unfold call. destruct (get (heap s) this name) as [f|]; simpl.
    + rewrite orb_false_r. by apply apply_disposer.
    + exists info. split; [done|]. split; [done|]. apply or_never.
  - exists info. split; [|split; [done|apply or_never]].
    destruct (propagate_spec e s) as (_ & Hm & _).
    unfold table in *. by rewrite Hm.
Qed.

Lemma activated_cons target s a l :
  activated target s (a :: l)
  = activated target s [a] || activated target (perform s a) l.
Proof. simpl. by rewrite orb_false_r. Qed.

(** Over a run, the disposer of a binding under a string name. *)
Lemma run_disposer s l target (k : string) info :
  table s target ≫= lookup_key k = Some info →
  ∃ info',
    table (run s l) target ≫= lookup_key k = Some info'
    ∧ binding info' = binding info
    ∧ (is_Some (disposer info')
       ↔ is_Some (disposer info) ∨ activated target s l = true).
Proof.
  revert s info. induction l as [|a l IH]; intros s info Hk.
  - exists info. split; [done|]. split; [done|]. apply or_never.
  - rewrite run_cons, activated_cons.
    destruct (perform_disposer s a target k info Hk) as (info1 & Hk1 & Hb1 & Hd1).
    destruct (IH _ _ Hk1) as (info' & Hk' & Hb' & Hd').
    exists info'. split; [done|]. split; [congruence|].
    rewrite Hd', Hd1, orb_true_iff. tauto.
Qed.





(** ** Two instances of one class *)

(** C3, for two instances [a] and [b] of one class, each activated and
    deactivated in turn.  The table is shared by the instances, so the
    activation of [b] replaces the disposer that the activation of [a]
    left there.  The deactivation of [a] then disposes the observation of
    [b]: the observation of [a] stays alive and applies the method to [a]
    when the predicate becomes true for it, and [b], still active, is no
    longer notified. *)
Theorem deactivation_disposes_the_latest_observation_only :
  let s := run Scenario.decorated
             [Call Scenario.a "componentDidMount" [];
              Call Scenario.b "componentDidMount" [];
              Call Scenario.a "componentWillUnmount" []] in
  events_since Scenario.decorated s
  = [Invoke 10 Scenario.a []; Observe 0 0 Scenario.a;
     Invoke 10 Scenario.b []; Observe 1 0 Scenario.b;
     Invoke 11 Scenario.a []; Dispose 1]
  ∧ events_since s (run s [Change (Scenario.only Scenario.a)])
    = [Fire (OnChange 0) (Native 12) Scenario.a [ANum 1; ANum 2]]
  ∧ events_since s (run s [Change (Scenario.only Scenario.b)]) = []
  ∧ events_since s
      (run s [Call Scenario.b "componentWillUnmount" [];
              Change (Scenario.only Scenario.a)])
    = [Invoke 11 Scenario.b []; Dispose 1;
       Fire (OnChange 0) (Native 12) Scenario.a [ANum 1; ANum 2]].
Proof. vm_compute. done. Qed.

(** ** One instance at a time

    When no observation is alive at activation, the matching deactivation
    disposes every observation the activation started. *)

Lemma subscribe_covered target this s (k : string) ks :
  k ∉ ks → covered target ks s → covered target (k :: ks) (subscribe target this s k).
Proof.
  intros Hk Hcov.
  destruct (table s target ≫= lookup_key k) as [info|] eqn:Hlook.
  2:{ rewrite subscribe_None by done. intros i r Hi Hd.
      destruct (Hcov i r Hi Hd) as (k' & info' & ? & ? & ?).
      exists k', info'. split; [by apply list_elem_of_further|done]. }
  destruct (table s target) as [d|] eqn:Ht; [simpl in Hlook|done].
  destruct (subscribe_Some target this s k d info Ht Hlook)
    as (_ & _ & Hr & Htab & _).
  intros i r Hi Hd. rewrite Hr in Hi.
  rewrite Htab, decide_True by done. simpl.
  apply lookup_app_Some in Hi as [Hi|[Hlen Hi]].
  - destruct (Hcov i r Hi Hd) as (k' & info' & Hin & Hk' & Hdisp).
    exists k', info'. split; [by apply list_elem_of_further|].
    split; [|done]. rewrite Ht in Hk'. simpl in Hk'.
    rewrite lookup_key_update, decide_False; [done|].
    intros [= ->]. done.
  - apply list_lookup_singleton_Some in Hi as [Hi _].
    exists k, (set_disposer (Some (length (reactions s))) info).
    split; [apply list_elem_of_here|]. split.
    + by rewrite lookup_key_update, decide_True, Hlook.
    + simpl. f_equal. lia.
Qed.

Lemma activation_loop_covered target this ks done_ s :
  NoDup (ks ++ done_) → covered target done_ s →
  covered target (reverse ks ++ done_) (foldl (subscribe target this) s ks).
Proof.
  revert done_ s. induction ks as [|k ks IH]; intros done_ s Hnd Hcov; [done|].
  simpl in *. apply NoDup_cons in Hnd as [Hk Hnd].
  rewrite reverse_cons, <-app_assoc. simpl. apply IH.
  - apply NoDup_app. apply NoDup_app in Hnd as (? & Hdisj & ?).
    split; [done|]. split.
    + intros x Hx [->|Hx']%elem_of_cons.
      * apply Hk, elem_of_app. by left.
      * by eapply Hdisj.
    + apply NoDup_cons. split; [|done].
      intros ?. apply Hk, elem_of_app. by right.
  - apply subscribe_covered; [|done].
    intros ?. apply Hk, elem_of_app. by right.
Qed.

Lemma all_disposed_covered target s : all_disposed s → covered target [] s.
Proof.
  intros Hall i r Hi Hd. unfold all_disposed in Hall.
  rewrite Forall_lookup in Hall. specialize (Hall i r Hi). congruence.
Qed.

Lemma emit_covered target ks evs s :
  covered target ks s → covered target ks (emit evs s).
Proof. done. Qed.

Lemma propagate_covered target ks e s :
  covered target ks s → covered target ks (propagate e s).
Proof.
  intros Hcov i r Hi Hd.
  destruct (propagate_spec e s) as (_ & Hm & _ & Hrs & _).
  rewrite Hrs in Hi. destruct (reactions s !! i) as [r0|] eqn:Hi0; [|done].
  simpl in Hi. injection Hi as <-.
  assert (isDisposed r0 = false) as Hd0.
  { unfold react in Hd.
    destruct (isDisposed r0) eqn:Hd0; [simpl in Hd; congruence | done]. }
  destruct (Hcov i r0 Hi0 Hd0) as (k & info & ? & Hk & ?).
  exists k, info. split; [done|]. split; [|done].
  unfold table in *. by rewrite Hm.
Qed.

Lemma changes_covered target ks envs s :
  covered target ks s → covered target ks (run s (Change <$> envs)).
Proof.
  revert s. induction envs as [|e envs IH]; intros s Hcov; [done|].
  rewrite fmap_cons, run_cons. apply IH. by apply propagate_covered.
Qed.

Lemma unsubscribe_disposes target s (k : string) i r :
  reactions (unsubscribe target s k) !! i = Some r →
  ∃ r0, reactions s !! i = Some r0
    ∧ (isDisposed r0 = true → isDisposed r = true)
    ∧ ((table s target ≫= lookup_key k) ≫= disposer = Some i →
       isDisposed r = true).
Proof.
  unfold unsubscribe.
  destruct (table s target ≫= lookup_key k) as [info|]; simpl.
  2:{ intros Hi. exists r. by repeat split. }
  destruct (disposer info) as [id|]; simpl.
  2:{ intros Hi. exists r. by repeat split. }
  unfold dispose. simpl. rewrite list_lookup_alter.
  case_decide as Hid; [subst id|].
  - intros (r0 & Hi0 & ->)%fmap_Some. exists r0. by repeat split.
  - intros Hi. exists r. repeat split; [done..|]. congruence.
Qed.

Lemma deactivation_loop_disposes target ks s i r :
  reactions (foldl (unsubscribe target) s ks) !! i = Some r →
  ∃ r0, reactions s !! i = Some r0
    ∧ (isDisposed r0 = true → isDisposed r = true)
    ∧ (∀ k : string, k ∈ ks →
         (table s target ≫= lookup_key k) ≫= disposer = Some i →
         isDisposed r = true).
Proof.
  revert s. induction ks as [|k ks IH]; intros s Hi; simpl in *.
  - exists r. repeat split; [done..|]. by intros k []%elem_of_nil.
  - destruct (IH _ Hi) as (r1 & Hi1 & Hkeep1 & Hdisp1).
    destruct (unsubscribe_disposes _ _ _ _ _ Hi1) as (r0 & Hi0 & Hkeep0 & Hdisp0).
    exists r0. split; [done|]. split; [tauto|].
    intros k' [->|Hin]%elem_of_cons Hk'; [tauto|].
    apply (Hdisp1 k' Hin).
    destruct (unsubscribe_spec target s k) as (_ & _ & Hm & _).
    unfold table in *. by rewrite Hm.
Qed.

Lemma changes_preserved envs s : preserved s (run s (Change <$> envs)).
Proof.
  revert s. induction envs as [|e envs IH]; intros s.
  - apply preserved_refl.
  - rewrite fmap_cons, run_cons.
    eapply preserved_trans; [apply propagate_preserved|apply IH].
Qed.

(** The property C3 asks for, for instances that are active one at a
    time: when no observation is alive as an instance is activated, none is
    alive after its deactivation, whatever changes happened in between. *)
Lemma active_period_disposes_all target oi od this envs s d :
  table s target = Some d → NoDup (keys d) → all_disposed s →
  all_disposed (active_period target oi od this envs s).
Proof.
  intros Ht Hnd Hall. unfold active_period.
  set (s1 := apply (InitWrapper target (Native oi)) this [] s).
  set (s2 := run s1 (Change <$> envs)).
  assert (covered target (names d) s2) as Hcov.
  { apply changes_covered. subst s1. simpl.
    change (table (emit [Invoke oi this []] s) target) with (table s target).
    rewrite Ht.
    assert (covered target (reverse (for_in d) ++ [])
              (foldl (subscribe target this) (emit [Invoke oi this []] s) (for_in d)))
      as Hc.
    { apply activation_loop_covered.
      - rewrite app_nil_r. by apply for_in_NoDup.
      - by apply emit_covered, all_disposed_covered. }
    intros i r Hi Hd. destruct (Hc i r Hi Hd) as (k & info & Hin & Hk & Hdisp).
    exists k, info. split; [|done].
    rewrite app_nil_r, elem_of_reverse in Hin.
    by apply elem_of_names, elem_of_for_in. }
  assert (∃ d2, table s2 target = Some d2 ∧ keys d2 = keys d)
    as (d2 & Ht2 & Hkeys2).
  { assert (preserved s s2) as Hp.
    { eapply preserved_trans; [apply apply_preserved|apply changes_preserved]. }
    pose proof (preserved_keys _ _ Hp target) as Hk. rewrite Ht in Hk.
    destruct (table s2 target) as [d2|]; [|done].
    exists d2. split; [done|]. by apply (inj Some). }
  simpl.
  change (table (emit [Invoke od this []] s2) target) with (table s2 target).
  rewrite Ht2. unfold all_disposed. apply Forall_lookup. intros i r Hi.
  destruct (deactivation_loop_disposes _ _ _ _ _ Hi) as (r0 & Hi0 & Hkeep & Hdisp).
  destruct (isDisposed r0) eqn:Hd0; [by apply Hkeep|].
  destruct (Hcov i r0 Hi0 Hd0) as (k & info & Hin & Hk & Hdis).
  apply (Hdisp k).
  - apply elem_of_for_in. rewrite Hkeys2. by apply elem_of_names.
  - change (table (emit [Invoke od this []] s2) target) with (table s2 target).
    by rewrite Hk.
Qed.

Lemma no_notifications (rs : list Reaction) :
  concat ((snd ∘ (λ r : Reaction, (r, @nil event))) <$> rs) = [].
Proof. induction rs as [|r rs IH]; [done|]. exact IH. Qed.

(** Once every observation is disposed, changes of the predicate apply
    nothing. *)
Lemma all_disposed_is_quiet envs s :
  all_disposed s →
  all_disposed (run s (Change <$> envs))
  ∧ trace (run s (Change <$> envs)) = trace s.
Proof.
  revert s. induction envs as [|e envs IH]; intros s Hall; [done|].
  rewrite fmap_cons, run_cons. cbn [perform].
  assert (imap (react e) (reactions s) = (λ r, (r, [])) <$> reactions s) as Himap.
  { rewrite <-imap_const. apply imap_ext. intros i r Hi.
    unfold all_disposed in Hall. rewrite Forall_lookup in Hall.
    unfold react. by rewrite (Hall i r Hi). }
  assert (propagate e s = with_env e s) as Hprop.
  { unfold propagate. rewrite Himap, <-!list_fmap_compose.
    rewrite no_notifications.
    rewrite (list_fmap_ext _ id (reactions s)) by done.
    rewrite list_fmap_id. unfold emit, with_reactions. simpl.
    by rewrite app_nil_r. }
  rewrite Hprop. destruct (IH (with_env e s) Hall) as [? ?]. done.
Qed.

(** ** A method named by a symbol *)

(** C2, at a method named by a symbol, with a predicate that is true at
    activation.  The decoration records the binding under the symbol, and
    [for ... in] does not enumerate symbols: the activation wrapper runs
    the original hook and nothing else, so the method is not applied.
    Decorated under a string name, the same method is observed and applied
    once. *)
Theorem symbol_named_method_is_not_applied_at_activation :
  let descriptor := Scenario.method 12 in
  let s0 := run Scenario.initial [Change Scenario.always] in
  let s1 := final (decorate Scenario.bound Scenario.C (Sym 0) descriptor s0) in
  let t1 := final (decorate Scenario.bound Scenario.C (Str "m") descriptor s0) in
  decorate Scenario.bound Scenario.C (Sym 0) descriptor s0
  = Normal descriptor s1
  ∧ table s1 Scenario.C = Some [(Sym 0, recorded Scenario.bound descriptor)]
  ∧ env s1 (predicate (recorded Scenario.bound descriptor)) Scenario.a = true
  ∧ for_in [(Sym 0, recorded Scenario.bound descriptor)] = []
  ∧ events_since s1 (run s1 [Call Scenario.a "componentDidMount" []])
    = [Invoke 10 Scenario.a []]
  ∧ events_since t1 (run t1 [Call Scenario.a "componentDidMount" []])
    = [Invoke 10 Scenario.a []; Observe 0 0 Scenario.a;
       Fire (Immediately Scenario.C "m") (Native 12) Scenario.a
         [ANum 1; ANum 2]].
Proof. vm_compute. done. Qed.

(** C1, at a method named by a symbol.  The activation wrapper starts no
    observation for the binding and leaves its disposer empty: whatever the
    predicate does afterwards, nothing is applied.  When its values are
    false, true, true, false, true, the method is applied not twice but
    never; decorated under a string name, the same method is applied
    twice. *)
Theorem symbol_named_method_is_never_observed :
  let descriptor := Scenario.method 12 in
  let values := [Scenario.never; Scenario.always; Scenario.always;
                 Scenario.never; Scenario.always] in
  let s1 := final (decorate Scenario.bound Scenario.C (Sym 0) descriptor
                     Scenario.initial) in
  let s2 := run s1 [Call Scenario.a "componentDidMount" []] in
  let t1 := final (decorate Scenario.bound Scenario.C (Str "m") descriptor
                     Scenario.initial) in
  let t2 := run t1 [Call Scenario.a "componentDidMount" []] in
  (table s1 Scenario.C = Some [(Sym 0, recorded Scenario.bound descriptor)]
   ∧ events_since s1 s2 = [Invoke 10 Scenario.a []]
   ∧ table s2 Scenario.C = table s1 Scenario.C
   ∧ reactions s2 = []
   ∧ (λ e : environment, e 0 Scenario.a) <$> values
     = [false; true; true; false; true]
   ∧ events_since s2 (run s2 (Change <$> values)) = []
   ∧ events_since t1 t2 = [Invoke 10 Scenario.a []; Observe 0 0 Scenario.a]
   ∧ events_since t2 (run t2 (Change <$> values))
     = [Fire (OnChange 0) (Native 12) Scenario.a [ANum 1; ANum 2];
        Fire (OnChange 0) (Native 12) Scenario.a [ANum 1; ANum 2]])
  ∧ ∀ envs, events_since s2 (run s2 (Change <$> envs)) = [].
Proof.
  intros descriptor values s1 s2 t1 t2. split; [vm_compute; done|].
  intros envs. destruct (all_disposed_is_quiet envs s2) as [_ Htr].
  { unfold all_disposed.
    assert (reactions s2 = []) as -> by (vm_compute; done). constructor. }
  unfold events_since. rewrite Htr. apply drop_all.
Qed.

(** ** Each key once

    The hypothesis [NoDup (keys d)] of the theorems on activation holds in
    every state the program reaches. *)

Lemma empty_registry_well_formed s : whenMap s = None → well_formed s.
Proof. intros Hm target d. unfold table. by rewrite Hm. Qed.

Lemma preserved_well_formed s s' : preserved s s' → well_formed s → well_formed s'.
Proof.
  intros Hp Hwf target d' Ht'.
  pose proof (preserved_keys _ _ Hp target) as Hk. rewrite Ht' in Hk.
  destruct (table s target) as [d|] eqn:Ht; [|done].
  apply (inj Some) in Hk. rewrite Hk. by apply (Hwf target).
Qed.

Lemma perform_well_formed s a : well_formed s → well_formed (perform s a).
Proof.
  intros Hwf. destruct a as [w target name desc|this name args|e]; simpl.
  - intros t d' Ht'. destruct (table s target) as [d|] eqn:Htarget.
    + rewrite (decorate_registered _ _ _ _ _ _ Htarget) in Ht'.
      destruct (has_key name d) eqn:Hin; simpl in Ht'; [by apply (Hwf t)|].
      rewrite table_modify_table in Ht'. case_decide; [subst t|by apply (Hwf t)].
      rewrite Htarget in Ht'. simpl in Ht'. injection Ht' as <-.
      apply has_key_false in Hin as [Hin _]. rewrite assign_fresh by done.
      unfold keys. rewrite fmap_app. apply NoDup_app.
      split; [by apply (Hwf target)|]. split; [|apply NoDup_singleton].
      intros x Hx ->%list_elem_of_singleton. done.
    + destruct (decorate_unregistered w target name desc s Htarget)
        as (_ & _ & _ & _ & Hother & Hc).
      destruct (decide (t = target)) as [->|Hne].
      * assert (d' = [] ∨ d' = [(name, recorded w desc)]) as [->| ->].
        { destruct (get (heap s) target (initFunctionName w));
            [destruct (get (heap s) target (deinitFunctionName w))|];
            destruct Hc as [_ Hc]; rewrite Hc in Ht'; injection Ht' as <-;
            [destruct (has_key name [])|..]; auto. }
        -- apply NoDup_nil_2.
        -- apply NoDup_singleton.
      * rewrite Hother in Ht' by done. by apply (Hwf t).
  - eapply preserved_well_formed; [apply call_preserved|done].
  - eapply preserved_well_formed; [apply propagate_preserved|done].
Qed.

Lemma run_well_formed s l : well_formed s → well_formed (run s l).
Proof.
  revert s. induction l as [|a l IH]; intros s Hwf; [done|].
  rewrite run_cons. by apply IH, perform_well_formed.
Qed.

(** ** The scenario of the specification

    Class [C] has one method [m] decorated with a predicate that is false
    at first and the parameters [1, 2].  Activation applies nothing; the
    predicate becoming true applies [m(1, 2)] once; after deactivation the
    predicate going false and true again applies nothing; reactivation
    applies [m(1, 2)] at once. *)
Example specification_scenario :
  events_since Scenario.decorated
    (run Scenario.decorated
       [Call Scenario.a "componentDidMount" [];
        Change Scenario.always;
        Call Scenario.a "componentWillUnmount" [];
        Change Scenario.never;
        Change Scenario.always;
        Call Scenario.a "componentDidMount" []])
  = [Invoke 10 Scenario.a [];
     Observe 0 0 Scenario.a;
     Fire (OnChange 0) (Native 12) Scenario.a [ANum 1; ANum 2];
     Invoke 11 Scenario.a [];
     Dispose 0;
     Invoke 10 Scenario.a [];
     Observe 1 0 Scenario.a;
     Fire (Immediately Scenario.C "m") (Native 12) Scenario.a [ANum 1; ANum 2]].
Proof. vm_compute. done. Qed.

(** With one instance active at a time, nothing is applied between a
    deactivation and the next activation. *)
Lemma quiet_after_deactivation target oi od this envs envs' s d :
  table s target = Some d → NoDup (keys d) → all_disposed s →
  let s' := active_period target oi od this envs s in
  events_since s' (run s' (Change <$> envs')) = [].
Proof.
  intros Ht Hnd Hall s'.
  destruct (all_disposed_is_quiet envs' s') as [_ Htr].
  { by eapply active_period_disposes_all. }
  unfold events_since. rewrite Htr. apply drop_all.
Qed.

(** * Further properties of the code *)

(** ** The registry over a whole run *)

Lemma perform_own_names s a : own_names_only s → own_names_only (perform s a).
Proof.
  intros Hown. destruct a as [w target name desc|this name args|e]; simpl.
  - intros t d' k Ht' Hk. destruct (table s target) as [d|] eqn:Htarget.
    + rewrite (decorate_registered _ _ _ _ _ _ Htarget) in Ht'.
      destruct (has_key name d) eqn:Hin; simpl in Ht'; [exact (Hown _ _ _ Ht' Hk)|].
      rewrite table_modify_table in Ht'. case_decide; [subst t|exact (Hown _ _ _ Ht' Hk)].
      rewrite Htarget in Ht'. simpl in Ht'. injection Ht' as <-.
      apply has_key_false in Hin as [Hin Hproto].
      rewrite assign_fresh in Hk by done.
      unfold keys in Hk. rewrite fmap_app in Hk.
      apply elem_of_app in Hk as [Hk|Hk]; [exact (Hown _ _ _ Htarget Hk)|].
      apply list_elem_of_singleton in Hk. by subst k.
    + destruct (decorate_unregistered w target name desc s Htarget)
        as (_ & _ & _ & _ & Hother & Hc).
      destruct (decide (t = target)) as [->|Hne].
      * destruct (has_key name []) eqn:Hin.
        -- assert (d' = []) as ->.
           { destruct (get (heap s) target (initFunctionName w));
               [destruct (get (heap s) target (deinitFunctionName w))|];
               destruct Hc as [_ Hc]; rewrite Hc in Ht'; by injection Ht' as <-. }
           by apply elem_of_nil in Hk.
        -- apply has_key_false in Hin as [_ Hproto].
           assert (d' = [] ∨ d' = [(name, recorded w desc)]) as [->| ->].
           { destruct (get (heap s) target (initFunctionName w));
               [destruct (get (heap s) target (deinitFunctionName w))|];
               destruct Hc as [_ Hc]; rewrite Hc in Ht'; injection Ht' as <-;
               auto. }
           ++ by apply elem_of_nil in Hk.
           ++ apply list_elem_of_singleton in Hk. by subst k.
      * rewrite Hother in Ht' by done. exact (Hown _ _ _ Ht' Hk).
  - pose proof (call_preserved this name args s) as Hp.
    intros t d' k Ht' Hk. pose proof (preserved_keys _ _ Hp t) as Hkeys.
    rewrite Ht' in Hkeys. destruct (table s t) as [d|] eqn:Ht; [|done].
    apply (inj Some) in Hkeys. rewrite Hkeys in Hk. exact (Hown _ _ _ Ht Hk).
  - pose proof (propagate_preserved e s) as Hp.
    intros t d' k Ht' Hk. pose proof (preserved_keys _ _ Hp t) as Hkeys.
    rewrite Ht' in Hkeys. destruct (table s t) as [d|] eqn:Ht; [|done].
    apply (inj Some) in Hkeys. rewrite Hkeys in Hk. exact (Hown _ _ _ Ht Hk).
Qed.

Lemma run_own_names s l : own_names_only s → own_names_only (run s l).
Proof.
  revert s. induction l as [|a l IH]; intros s Hown; [done|].
  rewrite run_cons. by apply IH, perform_own_names.
Qed.

(** X1. Starting without a registry, whatever decorations, lifecycle calls
    and changes follow, every table of the registry has each method name
    once, and none of its keys is a name inherited from
    [Object.prototype]. *)
Theorem registry_keys_are_unique_and_own s l :
  whenMap s = None →
  well_formed (run s l) ∧ own_names_only (run s l).
Proof.
  intros Hm. split.
  - by apply run_well_formed, empty_registry_well_formed.
  - apply run_own_names. intros target d k Ht. unfold table in Ht.
    by rewrite Hm in Ht.
Qed.

Lemma registry_keys_are_unique_and_own_witness :
  let l := [Decorate Scenario.bound Scenario.C "m" (Scenario.method 12);
            Decorate Scenario.other Scenario.C "toString" (Scenario.method 13);
            Call Scenario.a "componentDidMount" [];
            Decorate Scenario.other Scenario.C "m" (Scenario.method 12)] in
  well_formed (run Scenario.initial l) ∧ own_names_only (run Scenario.initial l).
Proof.
  intros l. apply (registry_keys_are_unique_and_own Scenario.initial l).
  reflexivity.
Defined.

Lemma perform_keys_prefix s a t d :
  table s t = Some d →
  ∃ d', table (perform s a) t = Some d' ∧ keys d `prefix_of` keys d'.
Proof.
  intros Ht. destruct a as [w target name desc|this name args|e]; simpl.
  - destruct (table s target) as [d0|] eqn:Htarget.
    + rewrite (decorate_registered _ _ _ _ _ _ Htarget).
      destruct (has_key name d0) eqn:Hin; simpl; [by exists d|].
      rewrite table_modify_table. case_decide; [subst t|by exists d].
      rewrite Ht. simpl. eexists. split; [done|].
      rewrite Htarget in Ht. injection Ht as ->.
      apply has_key_false in Hin as [Hin _]. rewrite assign_fresh by done.
      unfold keys. rewrite fmap_app. by apply prefix_app_r.
    + destruct (decorate_unregistered w target name desc s Htarget)
        as (_ & _ & _ & _ & Hother & _).
      exists d. split; [|done]. rewrite Hother; [done|].
      intros ->. by rewrite Htarget in Ht.
  - pose proof (preserved_keys _ _ (call_preserved this name args s) t) as Hk.
    rewrite Ht in Hk.
    destruct (table (final (call this name args s)) t) as [d'|]; [|done].
    exists d'. split; [done|]. apply (inj Some) in Hk. by rewrite Hk.
  - pose proof (preserved_keys _ _ (propagate_preserved e s) t) as Hk.
    rewrite Ht in Hk. destruct (table (propagate e s) t) as [d'|]; [|done].
    exists d'. split; [done|]. apply (inj Some) in Hk. by rewrite Hk.
Qed.

(** X2. A table only grows, and only at its end: over any run, the method
    names a class had bound are still bound, in the same order, and the
    names bound later come after them. *)
Theorem table_is_append_only s l t d :
  table s t = Some d →
  ∃ d', table (run s l) t = Some d' ∧ keys d `prefix_of` keys d'.
Proof.
  revert s d. induction l as [|a l IH]; intros s d Ht.
  - by exists d.
  - rewrite run_cons.
    destruct (perform_keys_prefix s a t d Ht) as (d1 & Ht1 & Hp1).
    destruct (IH _ _ Ht1) as (d' & Ht' & Hp').
    exists d'. split; [done|]. by etrans.
Qed.

Lemma table_is_append_only_witness :
  ∃ d', table (run Scenario.decorated
                 [Call Scenario.a "componentDidMount" [];
                  Decorate Scenario.other Scenario.C "n" (Scenario.method 14);
                  Change Scenario.always]) Scenario.C = Some d'
        ∧ keys [(Str "m", recorded Scenario.bound (Scenario.method 12))]
          `prefix_of` keys d'.
Proof.
  apply (table_is_append_only Scenario.decorated _ Scenario.C
           [(Str "m", recorded Scenario.bound (Scenario.method 12))]).
  reflexivity.
Defined.

(** ** What a decoration leaves alone *)

Lemma getOwnProperty_defineProperty_other h t name v o name' :
  o ≠ t →
  getOwnProperty (defineProperty h t name v) o name' = getOwnProperty h o name'.
Proof.
  intros Hne. unfold getOwnProperty, defineProperty.
  destruct (h !! t); by rewrite lookup_insert_ne.
Qed.

Lemma wrappers_for_names w target s p :
  p ∈ wrappers_for w target s →
  p.1 = initFunctionName w ∨ p.1 = deinitFunctionName w.
Proof.
  unfold wrappers_for.
  destruct (get (heap s) target (initFunctionName w)); [|by intros ?%elem_of_nil].
  intros [->|Hp]%elem_of_cons; [by left|].
  destruct (get (heap s) target (deinitFunctionName w)); [|by apply elem_of_nil in Hp].
  apply list_elem_of_singleton in Hp as ->. by right.
Qed.

Lemma defineProperties_frame (target : obj) (ws : list (string * func)) h :
  (∀ o n, (∀ p, p ∈ ws → p.1 ≠ n) →
     get (foldl (λ h p, defineProperty h target p.1 p.2) h ws) o n = get h o n)
  ∧ (∀ o n, o ≠ target ∨ (∀ p, p ∈ ws → p.1 ≠ n) →
       getOwnProperty (foldl (λ h p, defineProperty h target p.1 p.2) h ws) o n
       = getOwnProperty h o n).
Proof.
  revert h. induction ws as [|p ws IH]; intros h; [done|].
  destruct (IH (defineProperty h target p.1 p.2)) as [IHget IHown]. split.
  - intros o n Hn. simpl. rewrite IHget.
    + apply get_defineProperty_ne, Hn, list_elem_of_here.
    + intros q Hq. by apply Hn, list_elem_of_further.
  - intros o n Hn. simpl. rewrite IHown.
    + destruct Hn as [Ho|Hn].
      * by apply getOwnProperty_defineProperty_other.
      * apply getOwnProperty_defineProperty_ne, Hn, list_elem_of_here.
    + destruct Hn as [Ho|Hn]; [by left|right].
      intros q Hq. by apply Hn, list_elem_of_further.
Qed.

(** X3. A decoration that returns hands back the descriptor it was given.
    It starts no observation and applies no function: all it records is
    the definition of properties on the target.  It leaves the tables of
    the other classes, the own properties of every other object, and every
    property that is not under one of its two lifecycle names, on the
    class and as found from its instances, as they were: the decorated
    method itself stays the function it was. *)
Theorem decoration_frame w target propertyName descriptor s :
  let c := decorate w target propertyName descriptor s in
  (∀ result s', c = Normal result s' → result = descriptor)
  ∧ reactions (final c) = reactions s
  ∧ env (final c) = env s
  ∧ (∀ t, t ≠ target → table (final c) t = table s t)
  ∧ (∀ o n, o ≠ target → getOwnProperty (heap (final c)) o n
                         = getOwnProperty (heap s) o n)
  ∧ (∀ o n, n ≠ initFunctionName w → n ≠ deinitFunctionName w →
       get (heap (final c)) o n = get (heap s) o n)
  ∧ ∃ evs, trace (final c) = trace s ++ evs
           ∧ Forall (λ ev, ∃ n f, ev = DefineProperty target n f) evs.
Proof.
  simpl. destruct (table s target) as [d|] eqn:Ht.
  - rewrite (decorate_registered _ _ _ _ _ _ Ht).
    destruct (register_state w target propertyName descriptor d s Ht)
      as (s' & Hreg & Hh & Htr & He & Hr & Htab).
    unfold register in Hreg.
    assert ((if has_key propertyName d then Normal descriptor s
             else Normal descriptor
                    (modify_table (assign propertyName (recorded w descriptor))
                       target s)) = Normal descriptor s') as ->.
    { by destruct (has_key propertyName d). }
    simpl. rewrite Hh, Hr, He, Htr. repeat split; try done.
    + intros result s'' Heq. by injection Heq as <-.
    + intros t Hne. by rewrite Htab, decide_False.
    + exists []. by rewrite app_nil_r.
  - destruct (decorate_unregistered w target propertyName descriptor s Ht)
      as (Hh & Htr & He & Hr & Hother & Hc).
    destruct (defineProperties_frame target (wrappers_for w target s) (heap s))
      as [Hget Hown].
    rewrite Hh. repeat split; try done.
    + intros result s' Hnormal. rewrite Hnormal in Hc.
      destruct (get (heap s) target (initFunctionName w));
        [destruct (get (heap s) target (deinitFunctionName w))|];
        destruct Hc as [Hc _]; [|done..]. by injection Hc as <-.
    + intros o n Ho. apply Hown. by left.
    + intros o n Hi Hd. apply Hget. intros p Hp.
      destruct (wrappers_for_names _ _ _ _ Hp) as [-> | ->]; done.
    + eexists. split; [exact Htr|]. apply Forall_fmap, Forall_true.
      intros [n f]. by exists n, f.
Qed.



(** ** What the loops of the wrappers leave alone *)


(** ** Observations started by an activation *)

Lemma observations_app tr1 tr2 :
  observations (tr1 ++ tr2) = observations tr1 ++ observations tr2.
Proof. apply omap_app. Qed.

Lemma activation_loop_observations target this d ks s d' :
  table s target = Some d' →
  (∀ k : string, binding <$> lookup_key k d' = binding <$> lookup_key k d) →
  ∃ evs, trace (foldl (subscribe target this) s ks) = trace s ++ evs
    ∧ observations evs
      = imap (λ i info, (length (reactions s) + i, predicate info, this))
          (omap (λ k : string, lookup_key k d) ks)
    ∧ length (reactions (foldl (subscribe target this) s ks))
      = length (reactions s)
        + length (omap (λ k : string, lookup_key k d) ks).
Proof.
  revert s d'. induction ks as [|k ks IH]; intros s d' Ht Hrel.
  - exists []. simpl. by rewrite app_nil_r, Nat.add_0_r.
  - cbn [foldl]. pose proof (Hrel k) as Hk.
    destruct (lookup_key k d) as [info|] eqn:Hkd.
    + destruct (lookup_key k d') as [info'|] eqn:Hkd'; [|done].
      simpl in Hk. injection Hk as Hp Ho Hpar.
      destruct (subscribe_Some target this s k d' info' Ht Hkd')
        as (_ & _ & Hr & Htab & Htr).
      destruct (IH (subscribe target this s k)
                  (update (set_disposer (Some (length (reactions s)))) k d'))
        as (evs & Htr' & Hobs & Hlen).
      { by rewrite Htab, decide_True. }
      { intros k0. rewrite <-Hrel, lookup_key_update.
        case_decide as Hk0; [injection Hk0 as <-|done].
        by destruct (lookup_key k d'). }
      set (fires := if env s (predicate info') this
                    then match originalFunction info' with
                         | Some g => [Fire (Immediately target k) g this
                                        (default [] (parameters info'))]
                         | None => []
                         end
                    else []) in Htr.
      assert (observations fires = []) as Hfires.
      { subst fires. destruct (env s (predicate info') this); [|done].
        by destruct (originalFunction info'). }
      eexists. split; [by rewrite Htr', Htr, <-app_assoc|].
      cbn [omap list_omap]. rewrite Hkd. split.
      * rewrite observations_app, Hobs.
        change (observations (Observe (length (reactions s)) (predicate info')
                                this :: fires))
          with ((length (reactions s), predicate info', this)
                :: observations fires).
        rewrite Hfires, Hr, length_app, Hp. cbn [imap app length].
        rewrite Nat.add_0_r. f_equal. apply imap_ext. intros i x _. simpl.
        f_equal. f_equal. lia.
      * rewrite Hlen, Hr, length_app. simpl. lia.
    + destruct (lookup_key k d') as [info'|] eqn:Hkd'; [done|].
      rewrite subscribe_None by (by rewrite Ht). cbn [omap list_omap].
      rewrite Hkd. by apply (IH s d').
Qed.

Lemma visited_length d : length (visited d) = length (names d).
Proof.
  unfold visited.
  assert (∀ ks : list string, (∀ k : string, k ∈ ks → Str k ∈ keys d) →
            length (omap (λ k : string, lookup_key k d) ks) = length ks) as Hall.
  { induction ks as [|k ks IH]; intros Hks; [done|]. cbn [omap list_omap].
    destruct (lookup_key_is_Some k d) as [_ Hsome].
    destruct Hsome as [info ->]; [apply Hks, list_elem_of_here|].
    simpl. f_equal. apply IH. intros k' Hk'. by apply Hks, list_elem_of_further. }
  rewrite Hall.
  - unfold for_in. by rewrite for_in_order_Permutation.
  - intros k. by rewrite elem_of_for_in.
Qed.

(** X6. One activation starts exactly one observation for each binding of
    the class under a string name: those bindings are visited in
    [for ... in] order, each predicate is observed with the instance as
    receiver, and the engine holds as many more observations as the class
    has string names bound.  A binding under a symbol is not visited. *)
Theorem activation_starts_one_observation_per_binding
    s target oi this params d :
  table s target = Some d →
  let s' := apply (InitWrapper target (Native oi)) this params s in
  observations (events_since s s')
  = imap (λ i info, (length (reactions s) + i, predicate info, this))
      (visited d)
  ∧ length (visited d) = length (names d)
  ∧ length (reactions s') = length (reactions s) + length (names d).
Proof.
  intros Ht s'. subst s'. cbn [apply].
  change (table (emit [Invoke oi this params] s) target) with (table s target).
  rewrite Ht.
  destruct (activation_loop_observations target this d (for_in d)
              (emit [Invoke oi this params] s) d Ht (λ _, eq_refl))
    as (evs & Htr & Hobs & Hlen).
  split; [|split].
  - rewrite (events_since_app s _ ([Invoke oi this params] ++ evs)).
    + by rewrite observations_app.
    + rewrite Htr. simpl. by rewrite <-app_assoc.
  - apply visited_length.
  - rewrite Hlen. simpl. f_equal. apply visited_length.
Qed.

Lemma activation_starts_one_observation_per_binding_witness :
  let s := run Scenario.decorated
             [Decorate Scenario.other Scenario.C (Sym 7) (Scenario.method 15);
              Decorate Scenario.other Scenario.C "0" (Scenario.method 14)] in
  let d := [(Str "m", recorded Scenario.bound (Scenario.method 12));
            (Sym 7, recorded Scenario.other (Scenario.method 15));
            (Str "0", recorded Scenario.other (Scenario.method 14))] in
  let s' := apply (InitWrapper Scenario.C (Native 10)) Scenario.b [] s in
  table s Scenario.C = Some d
  ∧ observations (events_since s s') = [(0, 0, Scenario.b); (1, 0, Scenario.b)]
  ∧ length (visited d) = 2
  ∧ length (reactions s') = 2.
Proof.
  intros s d. split; [reflexivity|].
  apply (activation_starts_one_observation_per_binding s Scenario.C 10
           Scenario.b [] d).
  reflexivity.
Defined.

(** ** A binding without a method *)

Lemma react_without_method e id r :
  boundFunction (onChange r) = None →
  (react e id r).2 = []
  ∧ boundFunction (onChange (react e id r).1) = None.
Proof.
  intros Hnone. unfold react, notify. destruct (isDisposed r); [done|].
  case_bool_decide; [done|]. simpl. rewrite Hnone.
  by destruct (e (derivation r) (receiver r)).
Qed.

Lemma observation_without_method sid envs s r :
  reactions s !! sid = Some r → boundFunction (onChange r) = None →
  ∃ evs, trace (run s (Change <$> envs)) = trace s ++ evs
         ∧ fires_at (OnChange sid) evs = [].
Proof.
  revert s r. induction envs as [|e envs IH]; intros s r Hr Hnone.
  - exists []. by rewrite app_nil_r.
  - rewrite fmap_cons, run_cons. cbn [perform].
    destruct (propagate_spec e s) as (_ & _ & _ & Hrs & Htr).
    destruct (react_without_method e sid r Hnone) as [Hquiet Hnone'].
    assert (reactions (propagate e s) !! sid = Some (react e sid r).1) as Hsid
      by (by rewrite Hrs, Hr).
    destruct (IH _ _ Hsid Hnone') as (evs & Htr' & Hf).
    eexists. split; [by rewrite Htr', Htr, <-app_assoc|].
    by rewrite fires_at_app, Hf, notifications_fires, Hr, Hquiet.
Qed.

(** X7. A binding recorded from a descriptor without a value (an accessor)
    is observed like any other, and its disposer is stored, but nothing is
    ever applied for it: not at activation, whatever the predicate says,
    and not when the predicate changes afterwards. *)
Theorem binding_without_method_applies_nothing
    s target original this params d (k : string) info :
  table s target = Some d → NoDup (keys d) → lookup_key k d = Some info →
  originalFunction info = None →
  let s0 := apply original this params s in
  let s1 := apply (InitWrapper target original) this params s in
  fires_at (Immediately target k) (events_since s0 s1) = []
  ∧ ∃ sid,
      (table s1 target ≫= lookup_key k) ≫= disposer = Some sid
      ∧ ∀ envs,
          fires_at (OnChange sid) (events_since s1 (run s1 (Change <$> envs)))
          = [].
Proof.
  intros Ht Hnd Hk Hnone s0 s1.
  destruct (activation_entry s target original this params d k info Ht Hnd Hk)
    as (d1 & info1 & Ht1 & Hk1 & Hb & He & Hnd1 & Hin & Happ).
  fold s0 in Ht1, He, Happ. fold s1 in Happ.
  destruct (activation_loop target this k (for_in d1) s0 d1 info1 Hnd1 Ht1 Hk1)
    as (evs & Htr & Hfires & Hstarted).
  rewrite <-Happ in Htr, Hstarted. rewrite decide_True in Hfires by done.
  unfold binding in Hb. injection Hb as Hp Ho Hpar.
  unfold immediate_call in Hfires. rewrite Ho, Hnone in Hfires.
  split.
  - rewrite (events_since_app _ _ _ Htr), Hfires.
    by destruct (env s0 (predicate info1) this).
  - destruct (Hstarted Hin) as (sid & info' & Hlook & Hdisp & _ & Hr).
    exists sid. split; [by rewrite Hlook|]. intros envs.
    destruct (observation_without_method sid envs s1 _ Hr) as (evs' & Htr' & Hf).
    { simpl. congruence. }
    by rewrite (events_since_app _ _ _ Htr').
Qed.

Lemma binding_without_method_applies_nothing_witness :
  let accessor := {| value := None; writable := false; enumerable := false;
                     configurable := true |} in
  let s := run Scenario.initial
             [Decorate Scenario.bound Scenario.C "size" accessor;
              Change Scenario.always] in
  let s0 := apply (Native 10) Scenario.a [] s in
  let s1 := apply (InitWrapper Scenario.C (Native 10)) Scenario.a [] s in
  fires_at (Immediately Scenario.C "size") (events_since s0 s1) = []
  ∧ ∃ sid,
      (table s1 Scenario.C ≫= lookup_key "size") ≫= disposer = Some sid
      ∧ ∀ envs,
          fires_at (OnChange sid) (events_since s1 (run s1 (Change <$> envs)))
          = [].
Proof.
  intros accessor s.
  apply (binding_without_method_applies_nothing s Scenario.C (Native 10)
           Scenario.a [] [(Str "size", recorded Scenario.bound accessor)] "size"
           (recorded Scenario.bound accessor)).
  - reflexivity.
  - vm_compute. apply NoDup_singleton.
  - reflexivity.
  - reflexivity.
Defined.

(** ** Deactivation without activation *)

Lemma deactivation_loop_without_disposers target ks s d :
  table s target = Some d →
  (∀ (k : string) info, lookup_key k d = Some info → disposer info = None) →
  foldl (unsubscribe target) s ks = s.
Proof.
  intros Ht Hnone. induction ks as [|k ks IH]; [done|]. cbn [foldl].
  assert (unsubscribe target s k = s) as ->; [|done].
  unfold unsubscribe. rewrite Ht. simpl.
  destruct (lookup_key k d) as [info|] eqn:Hk; [|done].
  by rewrite (Hnone k info Hk).
Qed.

(** X8. When no binding of the class holds a disposer, as before the first
    activation, the deactivation wrapper runs the original hook and does
    nothing else. *)
Theorem deactivation_before_activation_is_the_original
    s target od this params d :
  table s target = Some d →
  (∀ (k : string) info, lookup_key k d = Some info → disposer info = None) →
  apply (DeinitWrapper target (Native od)) this params s
  = emit [Invoke od this params] s.
Proof.
  intros Ht Hnone. cbn [apply].
  change (table (emit [Invoke od this params] s) target) with (table s target).
  rewrite Ht. by eapply deactivation_loop_without_disposers.
Qed.

Lemma deactivation_before_activation_is_the_original_witness :
  apply (DeinitWrapper Scenario.C (Native 11)) Scenario.a [] Scenario.decorated
  = emit [Invoke 11 Scenario.a []] Scenario.decorated.
Proof.
  apply (deactivation_before_activation_is_the_original Scenario.decorated
           Scenario.C 11 Scenario.a []
           [(Str "m", recorded Scenario.bound (Scenario.method 12))]).
  - reflexivity.
  - intros k info. simpl. case_decide; [|done]. by intros [= <-].
Defined.

(** ** Activating twice *)

Lemma subscribe_keeps_reactions target this s (k : string) i r :
  reactions s !! i = Some r → reactions (subscribe target this s k) !! i = Some r.
Proof.
  intros Hi. destruct (table s target ≫= lookup_key k) as [info|] eqn:Hlook.
  2:{ by rewrite subscribe_None. }
  destruct (table s target) as [d|] eqn:Ht; [simpl in Hlook|done].
  destruct (subscribe_Some target this s k d info Ht Hlook) as (_ & _ & Hr & _).
  rewrite Hr. by apply lookup_app_l_Some.
Qed.

Lemma activation_loop_keeps_reactions target this ks s i r :
  reactions s !! i = Some r →
  reactions (foldl (subscribe target this) s ks) !! i = Some r.
Proof.
  revert s. induction ks as [|k ks IH]; intros s Hi; [done|].
  cbn [foldl]. by apply IH, subscribe_keeps_reactions.
Qed.

Lemma subscribe_reactions_length target this s (k : string) :
  length (reactions s) ≤ length (reactions (subscribe target this s k)).
Proof. apply (preserved_reactions _ _ (subscribe_preserved target this s k)). Qed.

(** The disposer the loop leaves in a binding it visits is the disposer of
    an observation started by that loop. *)
Lemma activation_loop_fresh_disposer target this (k : string) ks s :
  k ∈ ks → is_Some (table s target ≫= lookup_key k) →
  ∃ sid,
    (table (foldl (subscribe target this) s ks) target ≫= lookup_key k)
      ≫= disposer = Some sid
    ∧ length (reactions s) ≤ sid.
Proof.
  revert s. induction ks as [|k' ks IH]; intros s Hin Hk.
  - by apply elem_of_nil in Hin.
  - cbn [foldl]. destruct (decide (k ∈ ks)) as [Hks|Hks].
    + destruct (IH (subscribe target this s k') Hks) as (sid & Hsid & Hle).
      { eapply preserved_is_Some; [apply subscribe_preserved|done]. }
      exists sid. split; [done|].
      pose proof (subscribe_reactions_length target this s k'). lia.
    + apply elem_of_cons in Hin as [->|?]; [|done].
      destruct (activation_loop_other target this k' ks
                  (subscribe target this s k') Hks) as (Hl & _).
      simpl in Hl. rewrite Hl.
      destruct Hk as [info Hk].
      destruct (table s target) as [d|] eqn:Ht; [simpl in Hk|done].
      destruct (subscribe_Some target this s k' d info Ht Hk)
        as (_ & _ & _ & Htab & _).
      exists (length (reactions s)). split; [|done].
      rewrite Htab, decide_True by done. simpl.
      by rewrite lookup_key_update, decide_True, Hk.
Qed.

Lemma deactivation_loop_keeps target ks s i r :
  reactions s !! i = Some r →
  (∀ k : string,
     k ∈ ks → (table s target ≫= lookup_key k) ≫= disposer ≠ Some i) →
  reactions (foldl (unsubscribe target) s ks) !! i = Some r.
Proof.
  revert s. induction ks as [|k ks IH]; intros s Hi Hnot; [done|].
  cbn [foldl]. apply IH.
  - pose proof (Hnot k (list_elem_of_here _ _)) as Hk. unfold unsubscribe.
    destruct (table s target ≫= lookup_key k) as [info|]; [|done].
    simpl in Hk. destruct (disposer info) as [id|]; [|done].
    unfold dispose. simpl. rewrite list_lookup_alter_ne; [done|congruence].
  - intros k' Hk'.
    destruct (unsubscribe_spec target s k) as (_ & _ & Hm & _).
    unfold table in *. rewrite Hm. by apply Hnot, list_elem_of_further.
Qed.

(** X9. The activation wrapper does not guard against being run twice.
    Two activations of an instance without a deactivation in between leave
    two live observations of each binding, so every false-to-true step of
    the predicate applies the bound method twice.  The binding holds the
    disposer of the second observation only: the deactivation that follows
    disposes that one, and the first observation stays alive. *)
Theorem double_activation_overlaps
    s target oi od this params d (k : string) info f :
  table s target = Some d → NoDup (keys d) → lookup_key k d = Some info →
  originalFunction info = Some f →
  let activate := apply (InitWrapper target (Native oi)) this params in
  let s2 := activate (activate s) in
  let s3 := apply (DeinitWrapper target (Native od)) this params s2 in
  ∃ sid1 sid2 r1 r2,
    sid1 < sid2
    ∧ (table s2 target ≫= lookup_key k) ≫= disposer = Some sid2
    ∧ (∀ envs,
         let applied :=
           replicate
             (rising (env s (predicate info) this)
                ((λ e : environment, e (predicate info) this) <$> envs))
             (f, this, default [] (parameters info)) in
         fires_at (OnChange sid1) (events_since s2 (run s2 (Change <$> envs)))
         = applied
         ∧ fires_at (OnChange sid2) (events_since s2 (run s2 (Change <$> envs)))
           = applied)
    ∧ reactions s3 !! sid1 = Some r1 ∧ isDisposed r1 = false
    ∧ reactions s3 !! sid2 = Some r2 ∧ isDisposed r2 = true.
Proof.
  intros Ht Hnd Hk Hf activate s2 s3.
  (* first activation *)
  destruct (activation_entry s target (Native oi) this params d k info Ht Hnd Hk)
    as (d0 & info0 & Ht0 & Hk0 & Hb0 & He0 & Hnd0 & Hin0 & Happ1).
  destruct (activation_loop target this k (for_in d0) _ d0 info0 Hnd0 Ht0 Hk0)
    as (_ & _ & _ & Hstarted1).
  destruct (Hstarted1 Hin0) as (sid1 & info1 & Hlook1 & Hdisp1 & Hb1 & Hr1).
  rewrite <-Happ1 in Hlook1, Hr1. fold (activate s) in Hlook1, Hr1.
  set (s1 := activate s) in *.
  assert (env s1 = env s) as He1 by apply apply_env.
  destruct (table s1 target) as [d1|] eqn:Ht1; [simpl in Hlook1|done].
  assert (NoDup (keys d1)) as Hnd1.
  { pose proof (preserved_keys _ _ (apply_preserved (InitWrapper target (Native oi))
                                      this params s) target) as Hkeys.
    fold (activate s) in Hkeys. fold s1 in Hkeys. rewrite Ht1, Ht in Hkeys.
    apply (inj Some) in Hkeys. by rewrite Hkeys. }
  (* second activation *)
  destruct (activation_entry s1 target (Native oi) this params d1 k info1
              Ht1 Hnd1 Hlook1)
    as (d1' & info1' & Ht1' & Hk1' & Hb1' & He1' & Hnd1' & Hin1' & Happ2).
  fold (activate s1) in Happ2. fold s2 in Happ2.
  destruct (activation_loop target this k (for_in d1') _ d1' info1' Hnd1' Ht1' Hk1')
    as (_ & _ & _ & Hstarted2).
  destruct (Hstarted2 Hin1') as (sid2 & info2 & Hlook2 & Hdisp2 & Hb2 & Hr2).
  rewrite <-Happ2 in Hlook2, Hr2.
  assert (reactions s2 !! sid1 = Some (started this (env (apply (Native oi) this params s)) info0))
    as Hr1'.
  { rewrite Happ2. apply activation_loop_keeps_reactions. exact Hr1. }
  assert (sid1 < length (reactions s1)) as Hlt1 by (by eapply lookup_lt_Some).
  assert (∀ k' : string, k' ∈ for_in d1' →
            ∃ sid, (table s2 target ≫= lookup_key k') ≫= disposer = Some sid
                   ∧ length (reactions s1) ≤ sid) as Hfresh.
  { intros k' Hk'. rewrite Happ2.
    destruct (activation_loop_fresh_disposer target this k' (for_in d1')
                (apply (Native oi) this params s1) Hk') as (sid & Hsid & Hle).
    - rewrite Ht1'. simpl. apply lookup_key_is_Some. by apply elem_of_for_in.
    - exists sid. split; [done|]. exact Hle. }
  assert (length (reactions s1) ≤ sid2) as Hle2.
  { destruct (Hfresh k Hin1') as (sid & Hsid & Hle).
    rewrite Hlook2 in Hsid. simpl in Hsid. congruence. }
  unfold binding in Hb0, Hb1, Hb1', Hb2.
  injection Hb0 as Hp0 Ho0 Hpar0. injection Hb1 as Hp1 Ho1 Hpar1.
  injection Hb1' as Hp1' Ho1' Hpar1'. injection Hb2 as Hp2 Ho2 Hpar2.
  rewrite He0 in Hr1'. rewrite He1', He1 in Hr2.
  (* the table of the deactivation *)
  assert (∃ d2, table s2 target = Some d2) as [d2 Ht2].
  { destruct (table s2 target) as [d2|]; [by exists d2|done]. }
  assert (keys d2 = keys d1') as Hkeys2.
  { pose proof (preserved_keys _ _
                  (foldl_preserved (subscribe target this) (for_in d1')
                     (apply (Native oi) this params s1)
                     (subscribe_preserved target this)) target) as Hkeys.
    rewrite <-Happ2, Ht2, Ht1' in Hkeys. by apply (inj Some) in Hkeys. }
  assert (reactions s3 !! sid1 = Some (started this (env s) info0)) as Hlive.
  { subst s3. cbn [apply].
    change (table (emit [Invoke od this params] s2) target) with (table s2 target).
    rewrite Ht2. apply deactivation_loop_keeps; [exact Hr1'|].
    intros k' Hk'.
    change (table (emit [Invoke od this params] s2) target) with (table s2 target).
    destruct (Hfresh k') as (sid & Hsid & Hle).
    { apply elem_of_for_in. rewrite <-Hkeys2. by apply elem_of_for_in. }
    intros Heq. pose proof (eq_trans (eq_sym Hsid) Heq) as Hsame.
    injection Hsame as ->. lia. }
  assert (is_Some (reactions s3 !! sid2)) as [r2 Hr2'].
  { apply lookup_lt_is_Some. subst s3. cbn [apply].
    change (table (emit [Invoke od this params] s2) target) with (table s2 target).
    rewrite Ht2, deactivation_loop_length. simpl. by eapply lookup_lt_Some. }
  exists sid1, sid2, (started this (env s) info0), r2.
  split; [lia|]. split; [by rewrite Hlook2|]. split; [|split; [done|]].
  - intros envs applied. subst applied. split.
    + destruct (observation_fires sid1 f envs s2 _ Hr1' eq_refl)
        as (evs & Htr & Hfires).
      { simpl. congruence. }
      rewrite (events_since_app _ _ _ Htr), Hfires. simpl.
      by rewrite Hp0, Hpar0.
    + destruct (observation_fires sid2 f envs s2 _ Hr2 eq_refl)
        as (evs & Htr & Hfires).
      { simpl. congruence. }
      rewrite (events_since_app _ _ _ Htr), Hfires. simpl.
      by rewrite Hp1', Hp1, Hp0, Hpar1', Hpar1, Hpar0.
  - split; [done|]. split; [done|].
    subst s3. cbn [apply] in Hr2'.
    change (table (emit [Invoke od this params] s2) target)
      with (table s2 target) in Hr2'.
    rewrite Ht2 in Hr2'.
    destruct (deactivation_loop_disposes _ _ _ _ _ Hr2') as (r0 & _ & _ & Hdisp).
    apply (Hdisp k).
    + apply elem_of_for_in. rewrite Hkeys2. by apply elem_of_for_in.
    + change (table (emit [Invoke od this params] s2) target) with (table s2 target).
      by rewrite Hlook2.
Qed.

Lemma double_activation_overlaps_witness :
  let activate := apply (InitWrapper Scenario.C (Native 10)) Scenario.a [] in
  let s2 := activate (activate Scenario.decorated) in
  let s3 := apply (DeinitWrapper Scenario.C (Native 11)) Scenario.a [] s2 in
  ∃ sid1 sid2 r1 r2,
    sid1 < sid2
    ∧ (table s2 Scenario.C ≫= lookup_key "m") ≫= disposer = Some sid2
    ∧ (∀ envs,
         let applied :=
           replicate
             (rising false ((λ e : environment, e 0 Scenario.a) <$> envs))
             (Native 12, Scenario.a, [ANum 1; ANum 2]) in
         fires_at (OnChange sid1) (events_since s2 (run s2 (Change <$> envs)))
         = applied
         ∧ fires_at (OnChange sid2) (events_since s2 (run s2 (Change <$> envs)))
           = applied)
    ∧ reactions s3 !! sid1 = Some r1 ∧ isDisposed r1 = false
    ∧ reactions s3 !! sid2 = Some r2 ∧ isDisposed r2 = true.
Proof.
  apply (double_activation_overlaps Scenario.decorated Scenario.C 10 11
           Scenario.a [] [(Str "m", recorded Scenario.bound (Scenario.method 12))]
           "m" (recorded Scenario.bound (Scenario.method 12)) (Native 12)).
  - reflexivity.
  - vm_compute. apply NoDup_singleton.
  - reflexivity.
  - reflexivity.
Defined.

(** ** From decoration to deactivation *)

Lemma for_in_order_singleton k : for_in_order [k] = [k].
Proof.
  unfold for_in_order, index_keys. cbn [omap list_omap]. rewrite filter_cons.
  destruct (array_index k) as [n|]; reflexivity.
Qed.

(** X10. The first method decorated on a class that has both hooks, under
    a string name that is not one of [Object.prototype]'s: from then on the
    functions found under the two lifecycle names, applied one after the
    other to an instance, record exactly the run of the original init
    hook, the start of one observation of the predicate with the instance
    as receiver, the immediate application of the method with the recorded
    parameters when the predicate is true at that moment, the run of the
    original deinit hook, and the call of that observation's disposer. *)
Theorem first_cycle_of_a_decorated_method
    w target (propertyName : string) descriptor s oi od this args args' :
  table s target = None →
  get (heap s) target (initFunctionName w) = Some (Native oi) →
  get (heap s) target (deinitFunctionName w) = Some (Native od) →
  initFunctionName w ≠ deinitFunctionName w →
  propertyName ∉ objectPrototypeKeys →
  let s1 := final (decorate w target (Str propertyName) descriptor s) in
  let n := length (reactions s) in
  ∃ init deinit,
    get (heap s1) target (initFunctionName w) = Some init
    ∧ get (heap s1) target (deinitFunctionName w) = Some deinit
    ∧ events_since s1 (apply deinit this args' (apply init this args s1))
      = [Invoke oi this args; Observe n (boundPredicate w) this]
        ++ (if env s (boundPredicate w) this
            then match value descriptor with
                 | Some f => [Fire (Immediately target propertyName) f this
                                (default [] (funcParams w))]
                 | None => []
                 end
            else [])
        ++ [Invoke od this args'; Dispose n].
Proof.
  intros Ht Hinit Hdeinit Hne Hproto s1 n.
  destruct (decorate_unregistered w target propertyName descriptor s Ht)
    as (Hh & _ & He & Hr & _ & Hc).
  unfold wrappers_for in Hh. rewrite Hinit, Hdeinit in Hh, Hc.
  simpl in Hh. destruct Hc as [_ Htab]. fold s1 in Hh, He, Hr, Htab.
  assert (has_key propertyName [] = false) as Hfresh.
  { apply has_key_false. split; [apply not_elem_of_nil|].
    by apply bool_decide_eq_false. }
  rewrite Hfresh in Htab.
  exists (InitWrapper target (Native oi)), (DeinitWrapper target (Native od)).
  split; [|split].
  - rewrite Hh, get_defineProperty_ne by done. apply get_defineProperty.
  - rewrite Hh. apply get_defineProperty.
  - set (rec := recorded w descriptor) in *.
    set (s2 := emit [Invoke oi this args] s1).
    assert (table s2 target = Some [(Str propertyName, rec)]) as Ht2
      by exact Htab.
    assert (lookup_key propertyName [(Str propertyName, rec)] = Some rec) as Hk.
    { simpl. by rewrite decide_True. }
    destruct (subscribe_Some target this s2 propertyName _ rec Ht2 Hk)
      as (_ & _ & _ & Htab3 & Htr3).
    set (s3 := subscribe target this s2 propertyName) in *.
    assert (apply (InitWrapper target (Native oi)) this args s1 = s3) as ->.
    { cbn [apply]. fold s2. rewrite Ht2. unfold for_in.
      change (names [(Str propertyName, rec)]) with [propertyName].
      by rewrite for_in_order_singleton. }
    set (s4 := emit [Invoke od this args'] s3).
    set (d3 := update (set_disposer (Some (length (reactions s2)))) propertyName
                 [(Str propertyName, rec)]) in *.
    assert (table s4 target = Some d3) as Ht4.
    { change (table s4 target) with (table s3 target).
      by rewrite Htab3, decide_True. }
    assert (for_in d3 = [propertyName]) as Hfor.
    { unfold for_in, names, d3. rewrite keys_update. simpl.
      apply for_in_order_singleton. }
    assert (apply (DeinitWrapper target (Native od)) this args' s3
            = dispose (length (reactions s2)) s4) as ->.
    { cbn [apply]. fold s4. rewrite Ht4, Hfor. cbn [foldl].
      unfold unsubscribe. rewrite Ht4. simpl.
      unfold d3. rewrite lookup_key_update, decide_True, Hk by done.
      done. }
    apply events_since_app. unfold dispose. simpl. rewrite Htr3. simpl.
    rewrite Hr, He. subst n. rewrite <-!app_assoc. simpl.
    by destruct (env s (boundPredicate w) this), (value descriptor).
Qed.

Lemma first_cycle_of_a_decorated_method_witness :
  let s := with_env Scenario.always Scenario.initial in
  let s1 := final (decorate Scenario.bound Scenario.C "m" (Scenario.method 12) s) in
  ∃ init deinit,
    get (heap s1) Scenario.C "componentDidMount" = Some init
    ∧ get (heap s1) Scenario.C "componentWillUnmount" = Some deinit
    ∧ events_since s1 (apply deinit Scenario.a [ANum 7]
                         (apply init Scenario.a [] s1))
      = [Invoke 10 Scenario.a []; Observe 0 0 Scenario.a;
         Fire (Immediately Scenario.C "m") (Native 12) Scenario.a
           [ANum 1; ANum 2];
         Invoke 11 Scenario.a [ANum 7]; Dispose 0].
Proof.
  intros s.
  apply (first_cycle_of_a_decorated_method Scenario.bound Scenario.C "m"
           (Scenario.method 12) s 10 11 Scenario.a [] [ANum 7]).
  - reflexivity.
  - reflexivity.
  - reflexivity.
  - vm_compute. intros H. inversion H.
  - apply (proj1 (bool_decide_eq_false _)). reflexivity.
Defined.

(** ** Deactivating twice *)

Lemma dispose_disposed id s :
  (∀ r, reactions s !! id = Some r → isDisposed r = true) →
  reactions (dispose id s) = reactions s.
Proof.
  intros Hd. unfold Lambda in *. unfold dispose. simpl. apply list_eq. intros i.
  rewrite list_lookup_alter. case_decide as Hi; [subst i|done].
  destruct (reactions s !! id) as [r|] eqn:Hr; simpl; [|done].
  specialize (Hd r eq_refl). destruct r; simpl in *. by subst.
Qed.

Lemma deactivation_loop_of_disposed target ks s :
  (∀ (k : string) id r, k ∈ ks →
     (table s target ≫= lookup_key k) ≫= disposer = Some id →
     reactions s !! id = Some r → isDisposed r = true) →
  reactions (foldl (unsubscribe target) s ks) = reactions s.
Proof.
  revert s. induction ks as [|k ks IH]; intros s Hd; [done|].
  cbn [foldl].
  assert (reactions (unsubscribe target s k) = reactions s) as Hstep.
  { unfold unsubscribe.
    destruct (table s target ≫= lookup_key k) as [info|] eqn:Hk; [|done].
    destruct (disposer info) as [id|] eqn:Hid; [|done].
    apply dispose_disposed. intros r Hr.
    apply (Hd k id r); [apply list_elem_of_here| |done].
    by rewrite Hk. }
  rewrite IH, Hstep; [done|]. intros k' id r Hk' Hid Hr.
  destruct (unsubscribe_spec target s k) as (_ & _ & Hm & _).
  rewrite Hstep in Hr. unfold table in Hid. rewrite Hm in Hid.
  apply (Hd k' id r); [by apply list_elem_of_further|done..].
Qed.

(** X11. A second deactivation in a row does nothing to the engine: the
    deactivation wrapper calls again the disposers it finds in the
    bindings, and those observations are disposed already, so the
    observations are exactly as the first deactivation left them, and so
    is the registry. *)
Theorem second_deactivation_changes_nothing s target od this params this' params' :
  let s1 := apply (DeinitWrapper target (Native od)) this params s in
  let s2 := apply (DeinitWrapper target (Native od)) this' params' s1 in
  reactions s2 = reactions s1 ∧ whenMap s2 = whenMap s1 ∧ heap s2 = heap s1.
Proof.
  intros s1 s2.
  assert (∀ s0 th ps,
            whenMap (apply (DeinitWrapper target (Native od)) th ps s0)
            = whenMap s0) as Hmap.
  { intros s0 th ps. cbn [apply].
    destruct (table (emit [Invoke od th ps] s0) target); [|done].
    by rewrite deactivation_loop_whenMap. }
  split; [|split].
  - assert (table s1 target = table s target) as Htab1.
    { unfold table. subst s1. by rewrite Hmap. }
    subst s2. cbn [apply].
    change (table (emit [Invoke od this' params'] s1) target)
      with (table s1 target).
    destruct (table s1 target) as [d1|] eqn:Ht1; [|done].
    symmetry in Htab1.
    rewrite deactivation_loop_of_disposed; [done|].
    intros k id r Hk Hid Hr.
    change (table (emit [Invoke od this' params'] s1) target)
      with (table s1 target) in Hid.
    change (reactions (emit [Invoke od this' params'] s1))
      with (reactions s1) in Hr.
    assert (s1 = foldl (unsubscribe target) (emit [Invoke od this params] s)
                   (for_in d1)) as Hs1.
    { subst s1. cbn [apply].
      change (table (emit [Invoke od this params] s) target)
        with (table s target).
      by rewrite Htab1. }
    rewrite Hs1 in Hr.
    destruct (deactivation_loop_disposes _ _ _ _ _ Hr) as (r0 & _ & _ & Hdisp).
    apply (Hdisp k Hk).
    change (table (emit [Invoke od this params] s) target) with (table s target).
    assert (∀ t, table s1 t = table s t) as Hsame.
    { intros t. unfold table. subst s1. by rewrite Hmap. }
    by rewrite <-Hsame.
  - apply Hmap.
  - apply (preserved_heap _ _ (apply_preserved _ _ _ _)).
Qed.

(** ** Objects that have nothing to do with the class *)

Lemma get_defineProperty_unrelated h t name v o name' :
  o ≠ t →
  (∀ ob, h !! o = Some ob → t ∉ prototypeChain ob) →
  get (defineProperty h t name v) o name' = get h o name'.
Proof.
  intros Ho Hchain. unfold get.
  rewrite getOwnProperty_defineProperty_other by done.
  destruct (getOwnProperty h o name'); [done|].
  assert (defineProperty h t name v !! o = h !! o) as ->.
  { unfold defineProperty. destruct (h !! t); by rewrite lookup_insert_ne. }
  destruct (h !! o) as [ob|] eqn:Hob; [|done].
  specialize (Hchain ob eq_refl).
  induction (prototypeChain ob) as [|p l IH]; [done|]. simpl.
  apply not_elem_of_cons in Hchain as [Hp Hl].
  rewrite getOwnProperty_defineProperty_other by done. by rewrite IH.
Qed.

Lemma defineProperties_unrelated (target : obj) (ws : list (string * func)) h o n :
  o ≠ target →
  (∀ ob, h !! o = Some ob → target ∉ prototypeChain ob) →
  get (foldl (λ h p, defineProperty h target p.1 p.2) h ws) o n = get h o n.
Proof.
  intros Ho. revert h. induction ws as [|p ws IH]; intros h Hchain; [done|].
  simpl. rewrite IH.
  - by apply get_defineProperty_unrelated.
  - intros ob. unfold defineProperty.
    destruct (h !! target); rewrite lookup_insert_ne by done; apply Hchain.
Qed.

(** X12. A decoration is invisible to every object that is neither the
    target nor has the target on its prototype chain: whatever such an
    object finds under any name, the lifecycle names included, it finds
    the same after the decoration.  Classes that do not inherit from the
    decorated class, and their instances, keep their own hooks. *)
Theorem decoration_is_invisible_to_unrelated_objects
    w target propertyName descriptor s o n :
  o ≠ target →
  (∀ ob, heap s !! o = Some ob → target ∉ prototypeChain ob) →
  get (heap (final (decorate w target propertyName descriptor s))) o n
  = get (heap s) o n.
Proof.
  intros Ho Hchain. destruct (table s target) as [d|] eqn:Ht.
  - rewrite (decorate_registered _ _ _ _ _ _ Ht).
    destruct (has_key propertyName d); simpl; [done|].
    by rewrite heap_modify_table.
  - destruct (decorate_unregistered w target propertyName descriptor s Ht)
      as (Hh & _).
    rewrite Hh. by apply defineProperties_unrelated.
Qed.

Lemma decoration_is_invisible_to_unrelated_objects_witness :
  get (heap (final (decorate Scenario.bound Scenario.C "m" (Scenario.method 12)
                      Scenario.initial))) Scenario.D "componentDidMount"
  = get (heap Scenario.initial) Scenario.D "componentDidMount".
Proof.
  apply (decoration_is_invisible_to_unrelated_objects Scenario.bound Scenario.C
           "m" (Scenario.method 12) Scenario.initial Scenario.D
           "componentDidMount").
  - vm_compute. intros H. inversion H.
  - intros ob Hob. vm_compute in Hob. injection Hob as <-. simpl.
    apply not_elem_of_nil.
Defined.

Lemma decoration_frame_witness :
  reactions (final (decorate Scenario.other Scenario.C "n" (Scenario.method 14)
                      Scenario.decorated))
  = reactions Scenario.decorated.
Proof.
  apply (decoration_frame Scenario.other Scenario.C "n" (Scenario.method 14)
           Scenario.decorated).
Defined.


Lemma second_deactivation_changes_nothing_witness :
  let s := run Scenario.decorated [Call Scenario.a "componentDidMount" []] in
  let s1 := apply (DeinitWrapper Scenario.C (Native 11)) Scenario.a [] s in
  let s2 := apply (DeinitWrapper Scenario.C (Native 11)) Scenario.a [] s1 in
  reactions s2 = reactions s1 ∧ whenMap s2 = whenMap s1 ∧ heap s2 = heap s1.
Proof.
  intros s.
  apply (second_deactivation_changes_nothing s Scenario.C 11 Scenario.a []
           Scenario.a []).
Defined.

(** ** Instances active one at a time *)

Lemma preserved_lookup_table s s' t d :
  preserved s s' → table s t = Some d →
  ∃ d', table s' t = Some d' ∧ keys d' = keys d.
Proof.
  intros Hp Ht. pose proof (preserved_keys _ _ Hp t) as Hk. rewrite Ht in Hk.
  destruct (table s' t) as [d'|]; [|done].
  exists d'. split; [done|]. by apply (inj Some).
Qed.

Lemma active_period_preserved target oi od this envs s :
  preserved s (active_period target oi od this envs s).
Proof.
  unfold active_period.
  eapply preserved_trans; [apply apply_preserved|].
  eapply preserved_trans; [apply changes_preserved|apply apply_preserved].
Qed.

(** X13. When the instances of a class are active one at a time, nothing
    leaks: after any number of complete periods (activation, changes,
    deactivation), of the same instance or of different ones, every
    observation is disposed, and changes of the predicate apply nothing
    until the next activation. *)
Theorem one_instance_at_a_time_leaks_nothing target oi od periods envs s d :
  table s target = Some d → NoDup (keys d) → all_disposed s →
  let s' := active_periods target oi od periods s in
  all_disposed s' ∧ events_since s' (run s' (Change <$> envs)) = [].
Proof.
  intros Ht Hnd Hall s'.
  assert (all_disposed s') as Hall'.
  { subst s'. unfold active_periods.
    revert s d Ht Hnd Hall. induction periods as [|[this es] periods IH];
      intros s d Ht Hnd Hall; [done|].
    cbn [foldl fst snd].
    destruct (preserved_lookup_table s (active_period target oi od this es s)
                target d (active_period_preserved _ _ _ _ _ _) Ht)
      as (d1 & Ht1 & Hkeys1).
    apply (IH _ d1 Ht1).
    - by rewrite Hkeys1.
    - by eapply active_period_disposes_all. }
  split; [done|].
  destruct (all_disposed_is_quiet envs s' Hall') as [_ Htr].
  unfold events_since. rewrite Htr. apply drop_all.
Qed.

Lemma one_instance_at_a_time_leaks_nothing_witness :
  let s' := active_periods Scenario.C 10 11
              [(Scenario.a, [Scenario.always]);
               (Scenario.b, [Scenario.never; Scenario.always]);
               (Scenario.a, [])] Scenario.decorated in
  all_disposed s'
  ∧ events_since s' (run s' (Change <$> [Scenario.never; Scenario.always])) = [].
Proof.
  apply (one_instance_at_a_time_leaks_nothing Scenario.C 10 11
           [(Scenario.a, [Scenario.always]);
            (Scenario.b, [Scenario.never; Scenario.always]);
            (Scenario.a, [])]
           [Scenario.never; Scenario.always] Scenario.decorated
           [(Str "m", recorded Scenario.bound (Scenario.method 12))]).
  - reflexivity.
  - vm_compute. apply NoDup_singleton.
  - apply Forall_nil_2.
Defined.

(** ** The first decoration of a name *)

Lemma run_binding s l target k info :
  table s target ≫= lookup_key k = Some info →
  ∃ info', table (run s l) target ≫= lookup_key k = Some info'
           ∧ binding info' = binding info.
Proof.
  intros Hk. destruct k as [name|i].
  - destruct (run_disposer s l target name info Hk) as (info' & Hk' & Hb' & _).
    by exists info'.
  - exists info. split; [by apply run_symbol|done].
Qed.

(** X14. For a method name, string or symbol, that is not one of
    [Object.prototype]'s and has no binding yet, a decoration that returns
    binds the name for good: whatever runs afterwards, later decorations
    of the same name with another predicate, other parameters or another
    descriptor included, the name keeps the predicate, the method and the
    parameters of that first decoration. *)
Theorem first_decoration_binds_for_good
    w target propertyName descriptor s s' l :
  inherited propertyName = false →
  table s target ≫= lookup_key propertyName = None →
  decorate w target propertyName descriptor s = Normal descriptor s' →
  ∃ info,
    table (run s' l) target ≫= lookup_key propertyName = Some info
    ∧ predicate info = boundPredicate w
    ∧ originalFunction info = value descriptor
    ∧ parameters info = funcParams w.
Proof.
  intros Hproto Hfresh Hdec.
  pose proof (first_registration_wins w w target propertyName descriptor
                descriptor s s' Hproto Hfresh Hdec) as Hfirst.
  rewrite (redecoration_is_noop _ w _ _ _ descriptor _ _ Hdec) in Hfirst.
  simpl in Hfirst.
  destruct (run_binding s' l target propertyName _ Hfirst) as (info & Hk & Hb).
  exists info. split; [done|]. unfold binding in Hb. simpl in Hb.
  by injection Hb as -> -> ->.
Qed.

Lemma first_decoration_binds_for_good_witness :
  let s' := final (decorate Scenario.bound Scenario.C "m" (Scenario.method 12)
                     Scenario.initial) in
  ∃ info,
    table (run s' [Decorate Scenario.other Scenario.C "m" (Scenario.method 14);
                   Call Scenario.a "componentDidMount" []])
      Scenario.C ≫= lookup_key "m" = Some info
    ∧ predicate info = 0
    ∧ originalFunction info = Some (Native 12)
    ∧ parameters info = Some [ANum 1; ANum 2].
Proof.
  apply (first_decoration_binds_for_good Scenario.bound Scenario.C "m"
           (Scenario.method 12) Scenario.initial).
  - reflexivity.
  - reflexivity.
  - reflexivity.
Defined.


(** ** Bindings under string names *)

(** X16. For a binding under a string name, the activation wrapper, after
    the original hook has run, applies the bound method exactly once, to
    the instance and with the recorded parameters, when the predicate is
    true at that moment, and does not apply it when the predicate is
    false.  Everything the loop records is the start of an observation or
    such an immediate application for a name of the class.  With a user
    function as original hook, these are the only immediate applications
    of the whole activation. *)
Theorem immediate_fire s target original this params d (k : string) info f :
  table s target = Some d → NoDup (keys d) → lookup_key k d = Some info →
  originalFunction info = Some f →
  let s1 := apply original this params s in
  let s2 := apply (InitWrapper target original) this params s in
  fires_at (Immediately target k) (events_since s1 s2)
  = (if env s (predicate info) this
     then [(f, this, default [] (parameters info))]
     else [])
  ∧ Forall (λ ev, ∃ id p g args k',
              ev = Observe id p this
              ∨ ev = Fire (Immediately target k') g this args)
      (events_since s1 s2)
  ∧ ∀ id, original = Native id →
      fires_at (Immediately target k) (events_since s s2)
      = if env s (predicate info) this
        then [(f, this, default [] (parameters info))]
        else [].
Proof.
  intros Ht Hnd Hk Hf s1 s2.
  destruct (activation_entry s target original this params d k info Ht Hnd Hk)
    as (d1 & info1 & Ht1 & Hk1 & Hb & He & Hnd1 & Hin & Happ).
  fold s1 in Ht1, He, Happ. fold s2 in Happ.
  destruct (activation_loop target this k (for_in d1) s1 d1 info1 Hnd1 Ht1 Hk1)
    as (evs & Htr & Hfires & _).
  destruct (activation_loop_events target this (for_in d1) s1)
    as (evs' & Htr' & Hall).
  rewrite <-Happ in Htr, Htr'. rewrite decide_True in Hfires by done.
  unfold immediate_call in Hfires. unfold binding in Hb.
  injection Hb as Hp Ho Hpar. rewrite He, Hp, Ho, Hpar, Hf in Hfires.
  split; [|split].
  - by rewrite (events_since_app _ _ _ Htr).
  - by rewrite (events_since_app _ _ _ Htr').
  - intros id ->. subst s1. simpl in Htr.
    rewrite (events_since_app s s2 ([Invoke id this params] ++ evs))
      by (by rewrite Htr, <-app_assoc).
    by rewrite fires_at_app.
Qed.

Lemma immediate_fire_witness :
  let s := run Scenario.decorated [Change Scenario.always] in
  let s1 := apply (Native 10) Scenario.a [] s in
  let s2 := apply (InitWrapper Scenario.C (Native 10)) Scenario.a [] s in
  fires_at (Immediately Scenario.C "m") (events_since s1 s2)
  = [(Native 12, Scenario.a, [ANum 1; ANum 2])]
  ∧ Forall (λ ev, ∃ id p g args k',
              ev = Observe id p Scenario.a
              ∨ ev = Fire (Immediately Scenario.C k') g Scenario.a args)
      (events_since s1 s2)
  ∧ ∀ id, Native 10 = Native id →
      fires_at (Immediately Scenario.C "m") (events_since s s2)
      = [(Native 12, Scenario.a, [ANum 1; ANum 2])].
Proof.
  intros s.
  apply (immediate_fire s Scenario.C (Native 10) Scenario.a []
           [(Str "m", recorded Scenario.bound (Scenario.method 12))] "m"
           (recorded Scenario.bound (Scenario.method 12)) (Native 12)).
  - reflexivity.
  - vm_compute. apply NoDup_singleton.
  - reflexivity.
  - reflexivity.
Defined.

(** X15. For a binding under a string name, the activation wrapper leaves
    in the binding the disposer of the observation it started.  Over any
    sequence of changes that follows, the listener of that observation
    applies the bound method, to the instance and with the recorded
    parameters, once for each step of the predicate's value from false to
    true, and at no other step: a value that stays true and a value that
    becomes false apply nothing.  When the values are false, true, true,
    false, true, the method is applied exactly twice. *)
Theorem transition_fire s target original this params d (k : string) info f :
  table s target = Some d → NoDup (keys d) → lookup_key k d = Some info →
  originalFunction info = Some f →
  let s1 := apply (InitWrapper target original) this params s in
  ∃ sid info',
    table s1 target ≫= lookup_key k = Some info'
    ∧ disposer info' = Some sid
    ∧ (∀ envs,
         fires_at (OnChange sid) (events_since s1 (run s1 (Change <$> envs)))
         = replicate
             (rising (env s (predicate info) this)
                ((λ e, e (predicate info) this) <$> envs))
             (f, this, default [] (parameters info)))
    ∧ (∀ envs,
         (λ e : environment, e (predicate info) this) <$> envs
         = [false; true; true; false; true] →
         fires_at (OnChange sid) (events_since s1 (run s1 (Change <$> envs)))
         = [(f, this, default [] (parameters info));
            (f, this, default [] (parameters info))]).
Proof.
  intros Ht Hnd Hk Hf s1.
  destruct (activation_entry s target original this params d k info Ht Hnd Hk)
    as (d1 & info1 & Ht1 & Hk1 & Hb & He & Hnd1 & Hin & Happ).
  fold s1 in Happ.
  destruct (activation_loop target this k (for_in d1) _ d1 info1 Hnd1 Ht1 Hk1)
    as (_ & _ & _ & Hstarted).
  destruct (Hstarted Hin) as (sid & info' & Hlook & Hdisp & _ & Hr).
  rewrite <-Happ in Hlook, Hr. unfold binding in Hb.
  injection Hb as Hp Ho Hpar. rewrite He in Hr.
  assert (∀ envs,
            fires_at (OnChange sid) (events_since s1 (run s1 (Change <$> envs)))
            = replicate
                (rising (env s (predicate info) this)
                   ((λ e, e (predicate info) this) <$> envs))
                (f, this, default [] (parameters info))) as Hgeneral.
  { intros envs.
    destruct (observation_fires sid f envs s1 _ Hr eq_refl) as (evs & Htr & Hfires).
    { simpl. congruence. }
    rewrite (events_since_app _ _ _ Htr), Hfires. simpl.
    by rewrite Hp, Hpar. }
  exists sid, info'. repeat split; try done.
  intros envs Hvalues. rewrite Hgeneral.
  trans (replicate
           (rising (env s (predicate info) this) [false; true; true; false; true])
           (f, this, default [] (parameters info))).
  - f_equal. f_equal. exact Hvalues.
  - by destruct (env s (predicate info) this).
Qed.

Lemma transition_fire_witness :
  let s1 := apply (InitWrapper Scenario.C (Native 10)) Scenario.a []
              Scenario.decorated in
  ∃ sid info',
    table s1 Scenario.C ≫= lookup_key "m" = Some info'
    ∧ disposer info' = Some sid
    ∧ (∀ envs,
         fires_at (OnChange sid) (events_since s1 (run s1 (Change <$> envs)))
         = replicate
             (rising false ((λ e : environment, e 0 Scenario.a) <$> envs))
             (Native 12, Scenario.a, [ANum 1; ANum 2]))
    ∧ (∀ envs,
         (λ e : environment, e 0 Scenario.a) <$> envs
         = [false; true; true; false; true] →
         fires_at (OnChange sid) (events_since s1 (run s1 (Change <$> envs)))
         = [(Native 12, Scenario.a, [ANum 1; ANum 2]);
            (Native 12, Scenario.a, [ANum 1; ANum 2])]).
Proof.
  apply (transition_fire Scenario.decorated Scenario.C (Native 10) Scenario.a []
           [(Str "m", recorded Scenario.bound (Scenario.method 12))] "m"
           (recorded Scenario.bound (Scenario.method 12)) (Native 12)).
  - reflexivity.
  - vm_compute. apply NoDup_singleton.
  - reflexivity.
  - reflexivity.
Defined.

(** ** Bindings under symbols *)

(** X17. A binding under a symbol is never reached by the wrappers:
    whatever decorations, lifecycle calls and changes run, it stays exactly
    as it is, so the disposer of a binding recorded under a symbol stays
    empty.  On a class that has no string name bound, the activation
    wrapper does nothing but run the original hook. *)
Theorem symbol_named_binding_is_never_reached s l target i info :
  table s target ≫= lookup_key (Sym i) = Some info →
  table (run s l) target ≫= lookup_key (Sym i) = Some info
  ∧ ∀ d oi this params,
      table s target = Some d → names d = [] →
      apply (InitWrapper target (Native oi)) this params s
      = emit [Invoke oi this params] s.
Proof.
  intros Hk. split; [by apply run_symbol|].
  intros d oi this params Ht Hnames. cbn [apply].
  change (table (emit [Invoke oi this params] s) target) with (table s target).
  rewrite Ht. unfold for_in. by rewrite Hnames.
Qed.

Lemma symbol_named_binding_is_never_reached_witness :
  let rec := recorded Scenario.bound (Scenario.method 12) in
  let s := run Scenario.initial
             [Decorate Scenario.bound Scenario.C (Sym 0) (Scenario.method 12)] in
  let l := [Change Scenario.always;
            Call Scenario.a "componentDidMount" [];
            Change Scenario.never;
            Call Scenario.a "componentWillUnmount" []] in
  table (run s l) Scenario.C ≫= lookup_key (Sym 0) = Some rec
  ∧ ∀ d oi this params,
      table s Scenario.C = Some d → names d = [] →
      apply (InitWrapper Scenario.C (Native oi)) this params s
      = emit [Invoke oi this params] s.
Proof.
  intros rec s l.
  apply (symbol_named_binding_is_never_reached s l Scenario.C 0 rec).
  reflexivity.
Defined.
